(** * entrails: CloudTrail log analysis — identity normalisation,
      per-record filtering and the shared result maps.

    The development follows the Go sources: [normalizeArn], the body of
    [process], the worker loop of [run], and the two shard listers
    ([run] of the latest revision and [listKeysParallel] of the earlier one).
    Go strings are byte strings; they are modelled by [string], whose
    characters are bytes. *)

From Stdlib Require Import ZArith Ascii.
From stdpp Require Import gmap strings list fin_maps sorting.

Local Open Scope Z_scope.

(** ** The parts of Go's [strings] package the program calls *)

Module GoStrings.

(** [strings.HasPrefix(s, prefix)] *)
Fixpoint HasPrefix (s prefix : string) : bool :=
  match prefix with
  | EmptyString => true
  | String a prefix' =>
      match s with
      | EmptyString => false
      | String b s' => if Ascii.eqb a b then HasPrefix s' prefix' else false
      end
  end.

(** [strings.Index(s, substr)]: byte index of the first instance of
    [substr] in [s], or -1. *)
Fixpoint Index (s substr : string) : Z :=
  if HasPrefix s substr then 0
  else match s with
       | EmptyString => -1
       | String _ s' => let i := Index s' substr in
                        if i <? 0 then -1 else i + 1
       end.

(** [strings.Contains(s, substr)] is [Index(s, substr) >= 0]. *)
Definition Contains (s substr : string) : bool := 0 <=? Index s substr.

(** The slice expressions [s[:n]] and [s[n:]] for [n] within bounds. *)
Fixpoint sliceTo (s : string) (n : nat) : string :=
  match n, s with
  | S n', String c s' => String c (sliceTo s' n')
  | _, _ => EmptyString
  end.

Fixpoint sliceFrom (s : string) (n : nat) : string :=
  match n, s with
  | S n', String _ s' => sliceFrom s' n'
  | _, _ => s
  end.

(** The replacement loop of [strings.Replace]: [cnt] replacements at most,
    each at the first instance of [old] in what is left of [s]. *)
Fixpoint replaceCount (cnt : nat) (s old new : string) : string :=
  match cnt with
  | O => s
  | S cnt' =>
      let j := Index s old in
      if j <? 0 then s
      else sliceTo s (Z.to_nat j) +:+ new +:+
           replaceCount cnt' (sliceFrom s (Z.to_nat j + String.length old)) old new
  end.

(** [strings.Replace(s, old, new, n)] for a non-empty [old] (for an empty
    [old] Go steps rune by rune; the program never passes one, and for [n = 1]
    the result is the same).  A negative [n] means no limit; at most
    [length s + 1] instances fit in [s]. *)
Definition Replace (s old new : string) (n : Z) : string :=
  if n <? 0 then replaceCount (S (String.length s)) s old new
  else replaceCount (Z.to_nat n) s old new.

(** The loop of [genSplit]: cut at the first [cnt] instances of [sep]. *)
Fixpoint genSplit (cnt : nat) (s sep : string) : list string :=
  match cnt with
  | O => [s]
  | S cnt' =>
      let j := Index s sep in
      if j <? 0 then [s]
      else sliceTo s (Z.to_nat j) ::
           genSplit cnt' (sliceFrom s (Z.to_nat j + String.length sep)) sep
  end.

(** [strings.SplitN(s, sep, n)] for a non-empty [sep]: nil for [n = 0],
    at most [n] pieces for [n > 0], all pieces for [n < 0]. *)
Definition SplitN (s sep : string) (n : Z) : list string :=
  if n =? 0 then []
  else if n <? 0 then genSplit (String.length s) s sep
  else genSplit (Z.to_nat (n - 1)) s sep.

(** [strings.Split(s, sep)] is [SplitN(s, sep, -1)]. *)
Definition Split (s sep : string) : list string := SplitN s sep (-1).

(** Go's [a > b] on strings compares byte-wise, shorter prefix first. *)
Definition strGt (a b : string) : bool := String.ltb b a.

End GoStrings.

Import GoStrings.

(** ** IdentityNormalizer *)

(** [normalizeArn]: convert sts ARNs to iam ARNs and strip what follows the
    first slash. *)
Definition normalizeArn (raw : string) : string :=
  let arn := Replace raw "arn:aws:sts::" "arn:aws:iam::" 1 in
  let arn := Replace arn ":assumed-role/" ":role/" 1 in
  let idx := Index arn "/" in
  if negb (idx =? -1) then sliceTo arn (Z.to_nat idx) else arn.

(** The normalisation the two earlier revisions of [process] write inline:
    the second pattern is ["/assumed-role"], the cut is
    [strings.SplitN(arn, "/", 2)[0]].  [SplitN] with [n = 2] never returns an
    empty slice, so the index expression does not panic; [hd] reads it. *)
Definition inlineNormalize (raw : string) : string :=
  let arn := Replace (Replace raw "arn:aws:sts::" "arn:aws:iam::" 1)
                     "/assumed-role" "/role" 1 in
  hd EmptyString (SplitN arn "/" 2).

(** ** Log records *)

#[local] Set Warnings "-register-all".

(** A decoded JSON value, as [encoding/json] stores it in an
    [interface{}]: nil, bool, float64 (kept as the number was written),
    string, []interface{} and map[string]interface{}. *)
Inductive Any : Type :=
  | AnyNil
  | AnyBool (b : bool)
  | AnyFloat64 (lit : string)
  | AnyString (str : string)
  | AnySlice (elems : list Any)
  | AnyMap (fields : gmap string Any).
#[local] Set Warnings "register-all".

(** The anonymous struct [ev] a record is unmarshalled into.  A field that
    is absent from the JSON keeps Go's zero value: the empty string, a nil
    [*string] ([None]), a nil map (the empty map, for lookups). *)
Record UserIdentityT := { Arn : string }.

Record Event := {
  EventTime : string;
  EventSource : string;
  EventName : string;
  ErrorCode : option string;
  UserIdentity : UserIdentityT;
  RequestParameters : gmap string Any;
}.

(** The type assertion [v.(string)] on a map lookup; a missing key reads as
    a nil interface, for which the assertion fails. *)
Definition assertString (v : option Any) : option string :=
  match v with
  | Some (AnyString str) => Some str
  | _ => None
  end.

(** ** The state [run] shares with the workers

    [actions] and [secrets] are the two maps guarded by [mu]; [processed] is
    the atomic int64 counter; [getObjectLog] records the (bucket, key) of
    every [GetObject] request issued, oldest first. *)
Record State := {
  actions : gmap string string;
  secrets : gset string;
  processed : Z;
  getObjectLog : list (string * string);
}.

Definition setActions (m : gmap string string) (st : State) : State :=
  {| actions := m; secrets := secrets st;
     processed := processed st; getObjectLog := getObjectLog st |}.

Definition setSecrets (x : gset string) (st : State) : State :=
  {| actions := actions st; secrets := x;
     processed := processed st; getObjectLog := getObjectLog st |}.

Definition setProcessed (n : Z) (st : State) : State :=
  {| actions := actions st; secrets := secrets st;
     processed := n; getObjectLog := getObjectLog st |}.

Definition logGetObject (bucket key : string) (st : State) : State :=
  {| actions := actions st; secrets := secrets st;
     processed := processed st;
     getObjectLog := getObjectLog st ++ [(bucket, key)] |}.

(** [make(map[string]string)], [make(map[string]struct{})], a zero counter. *)
Definition initState : State :=
  {| actions := ∅; secrets := ∅; processed := 0; getObjectLog := [] |}.

(** Two's-complement wrap-around of an int64, and [atomic.AddInt64]. *)
Definition wrap64 (z : Z) : Z := (z + 2 ^ 63) mod 2 ^ 64 - 2 ^ 63.

Definition AddInt64 (x delta : Z) : Z := wrap64 (x + delta).

(** ** LogRecordProcessor *)

(** The first critical section of the loop body:
    [if prev, ok := actions[action]; !ok || ev.EventTime > prev] then
    [actions[action] = ev.EventTime]. *)
Definition upsertAction (action eventTime : string) (st : State) : State :=
  match actions st !! action with
  | Some prev =>
      if strGt eventTime prev
      then setActions (<[action := eventTime]> (actions st)) st
      else st
  | None => setActions (<[action := eventTime]> (actions st)) st
  end.

(** The second critical section: [secrets[sid] = struct{}{}]. *)
Definition addSecret (sid : string) (st : State) : State :=
  setSecrets ({[sid]} ∪ secrets st) st.

(** [strings.Split(ev.EventSource, ".")[0] + ":" + ev.EventName].  [Split]
    with a non-empty separator returns at least one piece (lemma
    [Split_not_nil]), so the index expression does not panic. *)
Definition actionOf (ev : Event) : string :=
  hd EmptyString (Split (EventSource ev) ".") +:+ ":" +:+ EventName ev.

(** The body of the loop over [wrapper.Records], after the record has been
    unmarshalled.  [normalize] is [normalizeArn] in the latest revision and
    the inline expression ([inlineNormalize]) in the two earlier ones; the
    rest of the body is the same in all three. *)
Definition processRecord (normalize : string → string) (identity : string)
    (ev : Event) (st : State) : State :=
  let norm := normalize (Arn (UserIdentity ev)) in
  if negb (String.eqb norm identity) || bool_decide (is_Some (ErrorCode ev))
  then st                                                  (* continue *)
  else
    let st := upsertAction (actionOf ev) (EventTime ev) st in
    if Contains (EventSource ev) "secretsmanager"
       && String.eqb (EventName ev) "GetSecretValue"
    then match assertString (RequestParameters ev !! "secretId") with
         | Some sid => addSecret sid st
         | None => st
         end
    else st.

(** What the program obtains from its collaborators: the object store, the
    gzip reader and the JSON decoder.  [None] is a returned error. *)
Record Env := {
  Body : Type;
  GzipReader : Type;
  RawMessage : Type;
  GetObject : string → string → option Body;          (* bucket, key *)
  gzipNewReader : Body → option GzipReader;
  decodeWrapper : GzipReader → option (list RawMessage);  (* wrapper.Records *)
  unmarshalEvent : RawMessage → option Event;
}.

(** One iteration of [for _, raw := range wrapper.Records]. *)
Definition processRaw (env : Env) (normalize : string → string)
    (identity : string) (st : State) (raw : RawMessage env) : State :=
  match unmarshalEvent env raw with
  | None => st                                             (* continue *)
  | Some ev => processRecord normalize identity ev st
  end.

(** [process]: fetch, gunzip, decode, then the loop over the records. *)
Definition process (env : Env) (normalize : string → string)
    (bucket key identity : string) (st : State) : State :=
  let st := logGetObject bucket key st in
  match GetObject env bucket key with
  | None => st                                             (* return *)
  | Some body =>
      match gzipNewReader env body with
      | None => st                                         (* return *)
      | Some gz =>
          match decodeWrapper env gz with
          | None => st                                     (* return *)
          | Some records =>
              fold_left (processRaw env normalize identity) records st
          end
      end
  end.

(** The body of a worker's [for obj := range jobs]: [process], then
    [atomic.AddInt64(&processed, 1)]. *)
Definition workerStep (env : Env) (normalize : string → string)
    (bucket identity : string) (st : State) (key : string) : State :=
  let st := process env normalize bucket key identity st in
  setProcessed (AddInt64 (processed st) 1) st.

(** The worker loop over the keys it receives, in the order received. *)
Definition worker (env : Env) (normalize : string → string)
    (bucket identity : string) (keys : list string) (st : State) : State :=
  fold_left (workerStep env normalize bucket identity) keys st.

(** *** The critical sections of a record

    Workers run concurrently; [mu] makes each of the two updates atomic, and
    the filters read the record only.  A concurrent run is therefore an
    interleaving of the workers' sequences of critical sections. *)
Inductive Op : Type :=
  | OpUpsert (action eventTime : string)
  | OpSecret (sid : string).

Definition applyOp (st : State) (o : Op) : State :=
  match o with
  | OpUpsert action eventTime => upsertAction action eventTime st
  | OpSecret sid => addSecret sid st
  end.

Definition recordOps (normalize : string → string) (identity : string)
    (ev : Event) : list Op :=
  let norm := normalize (Arn (UserIdentity ev)) in
  if negb (String.eqb norm identity) || bool_decide (is_Some (ErrorCode ev))
  then []
  else
    OpUpsert (actionOf ev) (EventTime ev) ::
    (if Contains (EventSource ev) "secretsmanager"
        && String.eqb (EventName ev) "GetSecretValue"
     then match assertString (RequestParameters ev !! "secretId") with
          | Some sid => [OpSecret sid]
          | None => []
          end
     else []).

(** The records of one object that reach [processRecord]. *)
Definition objectEvents (env : Env) (bucket key : string) : list Event :=
  match GetObject env bucket key with
  | None => []
  | Some body =>
      match gzipNewReader env body with
      | None => []
      | Some gz =>
          match decodeWrapper env gz with
          | None => []
          | Some records => omap (unmarshalEvent env) records
          end
      end
  end.

(** ** ObjectLister *)

(** What [paginator.NextPage] returns: a page of object keys, or an error.
    The listing of a prefix is the list of results [NextPage] returns while
    [HasMorePages] holds. *)
Inductive PageResult : Type :=
  | Page (contents : list string)
  | PageErr.

(** The keys of the pages that precede the first error. *)
Fixpoint collected (ps : list PageResult) : list string :=
  match ps with
  | Page contents :: rest => contents ++ collected rest
  | _ => []
  end.

Definition isPage (r : PageResult) : bool :=
  match r with Page _ => true | PageErr => false end.

Definition errorFree (ps : list PageResult) : bool := forallb isPage ps.

(** [listKeys], the single-threaded fallback: a listing error is fatal
    ([fail] exits the process, [None]). *)
Fixpoint listKeys (ps : list PageResult) : option (list string) :=
  match ps with
  | [] => Some []
  | PageErr :: _ => None
  | Page contents :: rest =>
      match listKeys rest with
      | Some keys => Some (contents ++ keys)
      | None => None
      end
  end.

(** *** The listing phase of [run], latest revision: one goroutine per
    prefix.  A goroutine is at its [for paginator.HasMorePages()] loop with
    the results still to come, or has returned. *)
Inductive Lister : Type :=
  | Listing (rest : list PageResult)
  | Returned.

Record ListState := {
  allKeys : list string;
  shardCount : Z;
  listers : list Lister;
}.

(** One scheduling step of goroutine [i]: the loop ends and the shard is
    counted, or [NextPage] fails and the goroutine returns, or a page is
    appended to [allKeys] under [lm]. *)
Definition listerStep (st : ListState) (i : nat) : ListState :=
  match listers st !! i with
  | Some (Listing []) =>
      {| allKeys := allKeys st;
         shardCount := AddInt64 (shardCount st) 1;
         listers := <[i := Returned]> (listers st) |}
  | Some (Listing (PageErr :: _)) =>
      {| allKeys := allKeys st;
         shardCount := shardCount st;
         listers := <[i := Returned]> (listers st) |}
  | Some (Listing (Page contents :: rest)) =>
      {| allKeys := allKeys st ++ contents;
         shardCount := shardCount st;
         listers := <[i := Listing rest]> (listers st) |}
  | _ => st
  end.

Definition listInit (pages : string → list PageResult)
    (prefixes : list string) : ListState :=
  {| allKeys := []; shardCount := 0;
     listers := (λ pref, Listing (pages pref)) <$> prefixes |}.

(** A run of the goroutines under a schedule (the goroutine to step, turn by
    turn). *)
Definition runListers (sched : list nat) (st : ListState) : ListState :=
  fold_left listerStep sched st.

Definition isReturned (l : Lister) : bool :=
  match l with Returned => true | Listing _ => false end.

(** [lwg.Wait()] returns once every goroutine has returned. *)
Definition listersDone (st : ListState) : bool := forallb isReturned (listers st).

(** *** [listKeysParallel], earlier revision: [shards] workers over a
    channel of prefixes.  A worker is at [for shard := range jobs], or inside
    the page loop of a shard, or has left its goroutine. *)
Inductive PoolWorker : Type :=
  | Receiving
  | ListingShard (rest : list PageResult)
  | Exited.

Record PoolState := {
  jobs : list string;
  all : list string;
  workers : list PoolWorker;
}.

Definition setWorker (i : nat) (w : PoolWorker) (st : PoolState) : PoolState :=
  {| jobs := jobs st; all := all st; workers := <[i := w]> (workers st) |}.

(** One scheduling step of worker [i].  Receiving from the closed channel
    ends the worker when the channel is empty; the [return] on a listing
    error leaves the goroutine, not only the page loop. *)
Definition poolStep (pages : string → list PageResult)
    (st : PoolState) (i : nat) : PoolState :=
  match workers st !! i with
  | Some Receiving =>
      match jobs st with
      | [] => setWorker i Exited st
      | shard :: queue =>
          {| jobs := queue; all := all st;
             workers := <[i := ListingShard (pages shard)]> (workers st) |}
      end
  | Some (ListingShard []) => setWorker i Receiving st
  | Some (ListingShard (PageErr :: _)) => setWorker i Exited st
  | Some (ListingShard (Page contents :: rest)) =>
      {| jobs := jobs st; all := all st ++ contents;
         workers := <[i := ListingShard rest]> (workers st) |}
  | _ => st
  end.

(** The channel filled with the prefixes and closed; [shards] workers
    started (none when [shards <= 0]). *)
Definition poolInit (prefixes : list string) (shards : Z) : PoolState :=
  {| jobs := prefixes; all := []; workers := replicate (Z.to_nat shards) Receiving |}.

Definition runPool (pages : string → list PageResult)
    (sched : list nat) (st : PoolState) : PoolState :=
  fold_left (poolStep pages) sched st.

Definition isExited (w : PoolWorker) : bool :=
  match w with Exited => true | _ => false end.

(** [wg.Wait()] returns once every worker has exited. *)
Definition poolDone (st : PoolState) : bool := forallb isExited (workers st).

(** [listKeysParallel]: [commonPrefixes] is the answer to the first,
    delimited [ListObjectsV2] call ([None]: the call fails and [fail] exits).
    Without common prefixes the listing falls back to [listKeys]; otherwise
    the pool runs and, once [wg.Wait()] has returned ([poolDone]), [all] is
    the result. *)
Definition listKeysParallel (pages : string → list PageResult)
    (commonPrefixes : option (list string)) (prefix : string) (shards : Z)
    (sched : list nat) : option (list string) :=
  match commonPrefixes with
  | None => None
  | Some [] => listKeys (pages prefix)
  | Some prefixes => Some (all (runPool pages sched (poolInit prefixes shards)))
  end.

(** ** Orchestrator: target identity, shard discovery, sorted views *)

(** The target identity of [run], latest revision: the [--identity] flag
    when it is set, else the normal form of the caller's ARN;
    [callerArn = None] is a failed [GetCallerIdentity], on which [fail]
    exits. *)
Definition resolveIdentity (identityFlag : string) (callerArn : option string)
    : option string :=
  if String.eqb identityFlag "" then
    match callerArn with
    | None => None
    | Some arn => Some (normalizeArn arn)
    end
  else Some identityFlag.

(** The same in the two earlier revisions, which take the caller's ARN as
    it is. *)
Definition resolveIdentityRaw (identityFlag : string) (callerArn : option string)
    : option string :=
  if String.eqb identityFlag "" then callerArn else Some identityFlag.

(** The inner loop of [getShardPrefixes]: the common prefixes of every
    prefix of the level, in order.  [commonPrefixes p] is what the delimited
    [ListObjectsV2] call answers for [p]; an error ([None]) is fatal. *)
Fixpoint nextLevel (commonPrefixes : string → option (list string))
    (prefixes : list string) : option (list string) :=
  match prefixes with
  | [] => Some []
  | p :: rest =>
      match commonPrefixes p with
      | None => None
      | Some cps =>
          match nextLevel commonPrefixes rest with
          | None => None
          | Some next => Some (cps ++ next)
          end
      end
  end.

(** The outer loop of [getShardPrefixes], [levels] rounds from [prefixes]:
    stop at the first level without common prefixes. *)
Fixpoint shardLevels (commonPrefixes : string → option (list string))
    (prefixes : list string) (levels : nat) : option (list string) :=
  match levels with
  | O => Some prefixes
  | S levels' =>
      match nextLevel commonPrefixes prefixes with
      | None => None
      | Some [] => Some prefixes                              (* break *)
      | Some next => shardLevels commonPrefixes next levels'
      end
  end.

(** [getShardPrefixes(ctx, cli, bucket, base, levels)]. *)
Definition getShardPrefixes (commonPrefixes : string → option (list string))
    (base : string) (levels : Z) : option (list string) :=
  shardLevels commonPrefixes [base] (Z.to_nat levels).

(** The prefixes [run] lists: the discovered ones when there are several,
    else the base prefix alone. *)
Definition shardPlan (prefix : string) (discovered : list string) : list string :=
  if 1 <? Z.of_nat (length discovered) then discovered else [prefix].

(** [sort.Strings]: ascending in Go's byte-wise order.  The sorted
    arrangement of a list of strings is unique, so the algorithm does not
    show; merge sort stands for it. *)
Definition sortStrings (l : list string) : list string := merge_sort String.le l.

(** [sortedKeys]: the keys of the map (in the order [range] yields them,
    which Go leaves open), sorted. *)
Definition sortedKeys (m : gmap string string) : list string :=
  sortStrings ((map_to_list m).*1).

(** [secretsList]. *)
Definition secretsList (m : gset string) : list string :=
  sortStrings (elements m).

(** ** Structural readings of the string operations

    [replaceFirst] and [cutAt] are what [Replace _ _ _ 1] and the
    index-and-slice of [normalizeArn] compute; the lemmas below connect them
    to the definitions above, and the proofs about [normalizeArn] go through
    them. *)

(** The first instance of [old] in [s], if any, replaced by [new]. *)
Fixpoint replaceFirst (s old new : string) : string :=
  if HasPrefix s old then new +:+ sliceFrom s (String.length old)
  else match s with
       | EmptyString => EmptyString
       | String c s' => String c (replaceFirst s' old new)
       end.

(** The text of [s] before its first byte [c]; all of [s] without one. *)
Fixpoint cutAt (c : ascii) (s : string) : string :=
  match s with
  | EmptyString => EmptyString
  | String a s' => if Ascii.eqb c a then EmptyString else String a (cutAt c s')
  end.

(** The byte [c] occurs in [s]. *)
Fixpoint mem (c : ascii) (s : string) : bool :=
  match s with
  | EmptyString => false
  | String a s' => if Ascii.eqb c a then true else mem c s'
  end.

(** Every tail of [p] that is a prefix of [short] is a prefix of [long]
    too. *)
Fixpoint tailsSafe (short long p : string) : bool :=
  implb (HasPrefix short p) (HasPrefix long p)
  && match p with
     | EmptyString => true
     | String _ p' => tailsSafe short long p'
     end.

(** The timestamp [upsertAction] leaves under a key that held [cur]. *)
Definition laterOf (cur : option string) (eventTime : string) : string :=
  match cur with
  | Some prev => if strGt eventTime prev then eventTime else prev
  | None => eventTime
  end.

(** The two result maps of a state. *)
Definition resultsOf (st : State) : gmap string string * gset string :=
  (actions st, secrets st).

(** A record reaches the ledger update: it passes the identity filter and
    the error filter. *)
Definition passesFilters (normalize : string → string) (identity : string)
    (ev : Event) : bool :=
  String.eqb (normalize (Arn (UserIdentity ev))) identity
  && negb (bool_decide (is_Some (ErrorCode ev))).

(** A record is a secret retrieval naming [sid]. *)
Definition secretRetrieval (ev : Event) (sid : string) : Prop :=
  Contains (EventSource ev) "secretsmanager" = true
  ∧ EventName ev = "GetSecretValue"
  ∧ RequestParameters ev !! "secretId" = Some (AnyString sid).

(** Every key of a page that precedes the first error of its shard is in
    [allKeys] already or still ahead of the shard's goroutine. *)
Definition keysAccounted (pages : string → list PageResult)
    (prefixes : list string) (st : ListState) : Prop :=
  ∀ i pref k, prefixes !! i = Some pref → k ∈ collected (pages pref) →
    k ∈ allKeys st
    ∨ ∃ rest, listers st !! i = Some (Listing rest) ∧ k ∈ collected rest.

(** The keys a lister goroutine, or a pool worker, may still append: those
    of the pages ahead of it, up to the first error. *)
Definition pendingOf (l : Lister) : list string :=
  match l with
  | Listing rest => collected rest
  | Returned => []
  end.

Definition pendingWorker (w : PoolWorker) : list string :=
  match w with
  | ListingShard rest => collected rest
  | _ => []
  end.

(** The keys the shards deliver before their first error, shard by shard. *)
Definition shardKeys (pages : string → list PageResult)
    (prefixes : list string) : list string :=
  flat_map (λ pref, collected (pages pref)) prefixes.

(** The pool has met no listing error and can meet none: the pages ahead
    of every worker and of every queued shard are free of errors, and a
    worker has exited only once the channel was empty. *)
Definition poolErrorFree (pages : string → list PageResult) (st : PoolState) : Prop :=
  (∀ i rest, workers st !! i = Some (ListingShard rest) → errorFree rest = true)
  ∧ (∀ p, p ∈ jobs st → errorFree (pages p) = true)
  ∧ ((∃ i, workers st !! i = Some Exited) → jobs st = []).

(** The prefixes [depth] levels below [prefixes]. *)
Fixpoint levelAt (commonPrefixes : string → option (list string))
    (depth : nat) (prefixes : list string) : option (list string) :=
  match depth with
  | O => Some prefixes
  | S depth' =>
      match nextLevel commonPrefixes prefixes with
      | None => None
      | Some next => levelAt commonPrefixes depth' next
      end
  end.

(** ** Records and collaborators used as concrete inputs *)

Definition aliceArn : string := "arn:aws:iam::123456789012:user/alice".

(** The normal form of [aliceArn], which [run] takes as the target when the
    caller is alice. *)
Definition targetIdentity : string := "arn:aws:iam::123456789012:user".

Definition describeInstances (eventTime : string) (err : option string) : Event :=
  {| EventTime := eventTime;
     EventSource := "ec2.amazonaws.com";
     EventName := "DescribeInstances";
     ErrorCode := err;
     UserIdentity := {| Arn := aliceArn |};
     RequestParameters := ∅ |}.

Definition getSecretValue (arn : string) (err : option string) : Event :=
  {| EventTime := "2024-01-15T10:00:00Z";
     EventSource := "secretsmanager.amazonaws.com";
     EventName := "GetSecretValue";
     ErrorCode := err;
     UserIdentity := {| Arn := arn |};
     RequestParameters := {["secretId" := AnyString "prod/db"]} |}.

(** The two successful calls of scenario A, and the failed call of
    scenario B. *)
Definition firstCall : Event := describeInstances "2024-01-15T10:00:00Z" None.
Definition secondCall : Event := describeInstances "2024-01-15T10:30:00Z" None.
Definition failedCall : Event :=
  describeInstances "2024-01-15T10:00:00Z" (Some "UnauthorizedOperation").

(** A record whose [userIdentity.arn] is absent. *)
Definition anonymousCall : Event :=
  {| EventTime := "2024-01-15T10:00:00Z";
     EventSource := "ec2.amazonaws.com";
     EventName := "DescribeInstances";
     ErrorCode := None;
     UserIdentity := {| Arn := "" |};
     RequestParameters := ∅ |}.

(** Retrievals of the secret ["prod/db"]: by the target, by the target
    with an error code, and by another principal (scenario C). *)
Definition ownRetrieval : Event := getSecretValue aliceArn None.
Definition failedRetrieval : Event :=
  getSecretValue aliceArn (Some "AccessDeniedException").
Definition foreignRetrieval : Event :=
  getSecretValue "arn:aws:iam::123456789012:role/Deployer" None.

(** An archive in which the object ["bad.json.gz"] is not a gzip stream
    (scenario D) and every other object holds the two records of
    scenario A. *)
Definition sampleEnv : Env :=
  {| Body := string;
     GzipReader := string;
     RawMessage := Event;
     GetObject := λ _ key, Some key;
     gzipNewReader := λ body, if String.eqb body "bad.json.gz" then None else Some body;
     decodeWrapper := λ _, Some [firstCall; secondCall];
     unmarshalEvent := Some |}.

Definition sampleKeys : list string := ["a.json.gz"; "bad.json.gz"; "b.json.gz"].

(** A listing in which the first page of shard ["AWSLogs/a/"] fails and
    shard ["AWSLogs/b/"] lists one key without error. *)
Definition samplePrefixes : list string := ["AWSLogs/a/"; "AWSLogs/b/"].

Definition samplePages (shard : string) : list PageResult :=
  if String.eqb shard "AWSLogs/a/" then [PageErr]
  else [Page ["AWSLogs/b/log1.json.gz"]].

(** An archive whose objects hold a record that cannot be unmarshalled
    between the two records of scenario A. *)
Definition tornEnv : Env :=
  {| Body := string;
     GzipReader := string;
     RawMessage := option Event;
     GetObject := λ _ key, Some key;
     gzipNewReader := Some;
     decodeWrapper := λ _, Some [Some firstCall; None; Some secondCall];
     unmarshalEvent := λ raw, raw |}.

(** A listing without errors: two pages of one key each in every shard. *)
Definition cleanPages (shard : string) : list PageResult :=
  [Page [shard +:+ "1.json.gz"]; Page [shard +:+ "2.json.gz"]].

(** A two-level archive: the base has the prefixes ["AWSLogs/a/"] and
    ["AWSLogs/b/"], of which only the first has prefixes below it. *)
Definition sampleTree (p : string) : option (list string) :=
  if String.eqb p "AWSLogs/" then Some ["AWSLogs/a/"; "AWSLogs/b/"]
  else if String.eqb p "AWSLogs/a/" then Some ["AWSLogs/a/eu/"; "AWSLogs/a/us/"]
  else Some [].

(** The same base, where the delimited listing of ["AWSLogs/b/"] fails. *)
Definition brokenTree (p : string) : option (list string) :=
  if String.eqb p "AWSLogs/" then Some ["AWSLogs/a/"; "AWSLogs/b/"]
  else if String.eqb p "AWSLogs/b/" then None
  else Some [].

(** Proof step for closed goals that hold by evaluation. *)
Ltac by_evaluation := vm_compute; reflexivity.

Section StringFacts.

Local Arguments Ascii.eqb : simpl never.

Implicit Types s t p old new : string.

Lemma append_nil_l s : "" +:+ s = s.
Proof. reflexivity. Qed.

Lemma append_cons a s t : String a s +:+ t = String a (s +:+ t).
Proof. reflexivity. Qed.

Lemma append_nil_r s : s +:+ "" = s.
Proof. induction s as [|c s IH]; [done|by rewrite append_cons, IH]. Qed.

Lemma append_assoc s t u : (s +:+ t) +:+ u = s +:+ t +:+ u.
Proof. induction s as [|c s IH]; [done|by rewrite !append_cons, IH]. Qed.

Lemma Index_eq s sub :
  Index s sub =
  if HasPrefix s sub then 0
  else match s with
       | EmptyString => -1
       | String _ s' => if Index s' sub <? 0 then -1 else (Index s' sub + 1)
       end.
Proof. by destruct s. Qed.

Lemma replaceFirst_eq s old new :
  replaceFirst s old new =
  if HasPrefix s old then new +:+ sliceFrom s (String.length old)
  else match s with
       | EmptyString => EmptyString
       | String c s' => String c (replaceFirst s' old new)
       end.
Proof. destruct s; reflexivity. Qed.

Lemma Index_lower s sub : -1 <= Index s sub.
Proof.
  induction s as [|c s IH]; rewrite Index_eq.
  - destruct (HasPrefix "" sub); lia.
  - destruct (HasPrefix (String c s) sub); [lia|].
    destruct (Z.ltb_spec (Index s sub) 0); lia.
Qed.

Lemma Index_neg_iff s sub : (Index s sub <? 0) = true ↔ Index s sub = -1.
Proof. pose proof (Index_lower s sub). rewrite Z.ltb_lt. lia. Qed.

Lemma HasPrefix_nil s : HasPrefix s "" = true.
Proof. by destruct s. Qed.

Lemma HasPrefix_cons a b s p :
  HasPrefix (String b s) (String a p) = if Ascii.eqb a b then HasPrefix s p else false.
Proof. reflexivity. Qed.

Lemma HasPrefix_nil_l p : HasPrefix "" p = match p with "" => true | _ => false end.
Proof. by destruct p. Qed.

Lemma HasPrefix_length s old :
  HasPrefix s old = true → (String.length old ≤ String.length s)%nat.
Proof.
  revert s. induction old as [|a old IH]; intros s H; [simpl; lia|].
  destruct s as [|b s]; [done|]. rewrite HasPrefix_cons in H.
  destruct (Ascii.eqb a b); [|done].
  apply IH in H. simpl. lia.
Qed.

Lemma sliceFrom_app s t n :
  (n ≤ String.length s)%nat → sliceFrom (s +:+ t) n = sliceFrom s n +:+ t.
Proof.
  revert n. induction s as [|c s IH]; intros [|n] Hn; simpl in Hn;
    rewrite ?append_cons, ?append_nil_l; try lia.
  - by destruct t.
  - done.
  - simpl. apply IH. lia.
Qed.

(** [Replace] with a limit of one is [replaceFirst]. *)
Lemma Replace_one s old new : Replace s old new 1 = replaceFirst s old new.
Proof.
  unfold Replace. change (Z.to_nat 1) with 1%nat. change (1 <? 0) with false.
  cbv beta iota zeta delta [replaceCount].
  induction s as [|c s IH]; rewrite Index_eq, replaceFirst_eq.
  - destruct (HasPrefix "" old) eqn:Hp; [done|done].
  - destruct (HasPrefix (String c s) old) eqn:Hp; [done|].
    destruct (Index s old <? 0) eqn:Hi; [by rewrite <- IH|].
    apply Z.ltb_ge in Hi.
    assert ((Index s old + 1 <? 0) = false) as -> by (apply Z.ltb_ge; lia).
    replace (Z.to_nat (Index s old + 1)) with (S (Z.to_nat (Index s old))) by lia.
    simpl. by rewrite append_cons, IH.
Qed.

Lemma HasPrefix_char c a s : HasPrefix (String a s) (String c "") = Ascii.eqb c a.
Proof. rewrite HasPrefix_cons, HasPrefix_nil. by destruct (Ascii.eqb c a). Qed.

(** The index-and-slice at the end of [normalizeArn] is [cutAt]. *)
Lemma truncate_cutAt c s :
  (let idx := Index s (String c "") in
   if negb (idx =? -1) then sliceTo s (Z.to_nat idx) else s) = cutAt c s.
Proof.
  cbv zeta. induction s as [|a s IH]; [done|].
  rewrite Index_eq, HasPrefix_char. simpl cutAt.
  destruct (Ascii.eqb c a) eqn:Hc; [done|].
  pose proof (Index_lower s (String c "")) as Hl.
  destruct (Z.ltb_spec (Index s (String c "")) 0) as [Hn|Hn].
  - assert (Index s (String c "") = -1) as Hm by lia.
    rewrite Hm in IH. simpl in *. by rewrite <- IH.
  - assert ((Index s (String c "") + 1 =? -1) = false) as -> by (apply Z.eqb_neq; lia).
    assert ((Index s (String c "") =? -1) = false) as He by (apply Z.eqb_neq; lia).
    rewrite He in IH. simpl negb in *. cbv iota in *.
    replace (Z.to_nat (Index s (String c "") + 1))
      with (S (Z.to_nat (Index s (String c "")))) by lia.
    simpl sliceTo. by rewrite IH.
Qed.

Lemma mem_cutAt c s : mem c (cutAt c s) = false.
Proof.
  induction s as [|a s IH]; [done|]. simpl.
  destruct (Ascii.eqb c a) eqn:Hc; [done|]. simpl. by rewrite Hc.
Qed.

Lemma cutAt_id c s : mem c s = false → cutAt c s = s.
Proof.
  induction s as [|a s IH]; [done|]. simpl.
  destruct (Ascii.eqb c a); [done|]. intros H. by rewrite IH.
Qed.

Lemma cutAt_app_mem c s t : mem c s = true → cutAt c (s +:+ t) = cutAt c s.
Proof.
  induction s as [|a s IH]; [done|]. rewrite append_cons. simpl.
  destruct (Ascii.eqb c a); [done|]. intros H. by rewrite IH.
Qed.

Lemma mem_app c s t : mem c (s +:+ t) = mem c s || mem c t.
Proof.
  induction s as [|a s IH]; [done|]. rewrite append_cons. simpl.
  by destruct (Ascii.eqb c a).
Qed.

Lemma mem_sliceFrom c s n : mem c s = false → mem c (sliceFrom s n) = false.
Proof.
  revert n. induction s as [|a s IH]; intros [|n]; simpl; try done.
  destruct (Ascii.eqb c a); [done|]. apply IH.
Qed.

Lemma HasPrefix_mem c s old :
  HasPrefix s old = true → mem c old = true → mem c s = true.
Proof.
  revert s. induction old as [|a old IH]; intros [|b s]; try done.
  rewrite HasPrefix_cons. destruct (Ascii.eqb_spec a b) as [->|]; [|done].
  simpl. destruct (Ascii.eqb c b); [done|]. apply IH.
Qed.

(** A string free of a byte that [old] contains has no instance of [old]. *)
Lemma replaceFirst_no_mem c s old new :
  mem c old = true → mem c s = false → replaceFirst s old new = s.
Proof.
  intros Ho. induction s as [|a s IH]; intros Hs; rewrite replaceFirst_eq.
  - destruct (HasPrefix "" old) eqn:Hp; [|done].
    by rewrite (HasPrefix_mem c _ _ Hp Ho) in Hs.
  - destruct (HasPrefix (String a s) old) eqn:Hp.
    + by rewrite (HasPrefix_mem c _ _ Hp Ho) in Hs.
    + simpl in Hs. destruct (Ascii.eqb c a); [done|]. by rewrite IH.
Qed.

Lemma replaceFirst_absent s old new :
  Contains s old = false → replaceFirst s old new = s.
Proof.
  unfold Contains. induction s as [|a s IH]; rewrite Index_eq, replaceFirst_eq.
  - by destruct (HasPrefix "" old).
  - destruct (HasPrefix (String a s) old); [done|].
    intros H. rewrite IH; [done|].
    destruct (Z.ltb_spec (Index s old) 0); apply Z.leb_gt; apply Z.leb_gt in H; lia.
Qed.

Lemma mem_replaceFirst c s old new :
  mem c s = false → mem c new = false → mem c (replaceFirst s old new) = false.
Proof.
  intros Hs Hn. induction s as [|a s IH]; rewrite replaceFirst_eq.
  - destruct (HasPrefix "" old); [|done].
    by rewrite mem_app, Hn, mem_sliceFrom.
  - destruct (HasPrefix (String a s) old).
    + by rewrite mem_app, Hn, mem_sliceFrom.
    + simpl in *. destruct (Ascii.eqb c a); [done|]. by apply IH.
Qed.

(** Instances of a pattern around a separator byte [c].  A pattern free of
    [c] cannot reach over the separator; a pattern that ends in its only [c]
    is decided by the separator at the latest. *)
Lemma HasPrefix_app_sep c p s old :
  mem c old = false → HasPrefix (p +:+ String c s) old = HasPrefix p old.
Proof.
  revert p. induction old as [|a old IH]; intros p Ho.
  - by rewrite !HasPrefix_nil.
  - simpl in Ho. destruct (Ascii.eqb c a) eqn:Hc; [done|].
    destruct p as [|b p].
    + rewrite append_nil_l, HasPrefix_cons, HasPrefix_nil_l.
      rewrite Ascii.eqb_sym in Hc. by rewrite Hc.
    + rewrite append_cons, !HasPrefix_cons.
      destruct (Ascii.eqb a b); [by apply IH|done].
Qed.

Lemma HasPrefix_app_sep_end c p s q :
  mem c q = false →
  HasPrefix (p +:+ String c s) (q +:+ String c "")
  = HasPrefix (p +:+ String c "") (q +:+ String c "").
Proof.
  revert p. induction q as [|a q IH]; intros p Hq.
  - rewrite append_nil_l. destruct p as [|b p].
    + rewrite !append_nil_l, !HasPrefix_cons, !HasPrefix_nil. done.
    + rewrite !append_cons, !HasPrefix_cons, !HasPrefix_nil. done.
  - simpl in Hq. destruct (Ascii.eqb c a) eqn:Hc; [done|].
    rewrite append_cons. destruct p as [|b p].
    + rewrite !append_nil_l, !HasPrefix_cons.
      rewrite Ascii.eqb_sym in Hc. by rewrite Hc.
    + rewrite !append_cons, !HasPrefix_cons.
      destruct (Ascii.eqb a b); [by apply IH|done].
Qed.

Lemma Contains_cons_miss a s old :
  HasPrefix (String a s) old = false → Contains (String a s) old = Contains s old.
Proof.
  intros H. unfold Contains. rewrite (Index_eq (String a s)), H.
  pose proof (Index_lower s old).
  destruct (Z.ltb_spec (Index s old) 0).
  - transitivity false; [done|]. symmetry. apply Z.leb_gt. lia.
  - transitivity true; [apply Z.leb_le; lia|]. symmetry. apply Z.leb_le. lia.
Qed.

Lemma Contains_hit s old : HasPrefix s old = true → Contains s old = true.
Proof. intros H. unfold Contains. by rewrite Index_eq, H. Qed.

(** Replacing a pattern free of [c] in [p ++ c ++ s] happens in [p], or,
    when [p] has no instance, in [s]. *)
Lemma replaceFirst_app_sep c p s old new :
  mem c old = false →
  replaceFirst (p +:+ String c s) old new
  = replaceFirst p old new
    +:+ String c (if Contains p old then s else replaceFirst s old new).
Proof.
  intros Ho. induction p as [|b p IH].
  - rewrite append_nil_l. rewrite (replaceFirst_eq (String c s)).
    replace (HasPrefix (String c s) old) with (HasPrefix "" old)
      by (symmetry; apply (HasPrefix_app_sep c "" s old Ho)).
    rewrite (replaceFirst_eq ""). destruct (HasPrefix "" old) eqn:Hp.
    + rewrite (Contains_hit _ _ Hp). destruct old; [|done].
      simpl. by rewrite append_nil_r.
    + unfold Contains. rewrite Index_eq, Hp. done.
  - rewrite append_cons, (replaceFirst_eq (String b _)).
    rewrite <- append_cons, (HasPrefix_app_sep c _ s old Ho).
    rewrite (replaceFirst_eq (String b p)).
    destruct (HasPrefix (String b p) old) eqn:Hp.
    + rewrite (Contains_hit _ _ Hp), append_assoc. f_equal.
      apply sliceFrom_app. by apply HasPrefix_length.
    + rewrite (Contains_cons_miss _ _ _ Hp), append_cons, IH. done.
Qed.

(** With a pattern [q ++ c] whose only [c] is the last byte and a
    replacement that contains [c], the text up to the first [c] of the result
    does not depend on what follows the separator. *)
Lemma cutAt_replaceFirst_sep c p s q new :
  mem c q = false → mem c new = true →
  cutAt c (replaceFirst (p +:+ String c s) (q +:+ String c "") new)
  = cutAt c (replaceFirst (p +:+ String c "") (q +:+ String c "") new).
Proof.
  intros Hq Hn. induction p as [|b p IH].
  - rewrite !append_nil_l, !(replaceFirst_eq (String c _)).
    pose proof (HasPrefix_app_sep_end c "" s q Hq) as He.
    rewrite !append_nil_l in He. rewrite He.
    destruct (HasPrefix (String c "") (q +:+ String c "")).
    + by rewrite !(cutAt_app_mem _ _ _ Hn).
    + simpl. by rewrite Ascii.eqb_refl.
  - rewrite !append_cons, !(replaceFirst_eq (String b _)).
    rewrite <- !append_cons, (HasPrefix_app_sep_end c _ s q Hq).
    destruct (HasPrefix (String b p +:+ String c "") (q +:+ String c "")).
    + by rewrite !(cutAt_app_mem _ _ _ Hn).
    + simpl. destruct (Ascii.eqb c b); [done|]. by rewrite IH.
Qed.

(** The index expressions [Split(...)[0]] and [SplitN(..., 2)[0]] are in
    range. *)
Lemma genSplit_not_nil cnt s sep : genSplit cnt s sep ≠ [].
Proof. destruct cnt; simpl; [done|]. by destruct (Index s sep <? 0). Qed.

Lemma Split_not_nil s sep : Split s sep ≠ [].
Proof. apply genSplit_not_nil. Qed.

Lemma SplitN_two_not_nil s sep : SplitN s sep 2 ≠ [].
Proof. apply genSplit_not_nil. Qed.

Lemma normalizeArn_unfold raw :
  normalizeArn raw =
  cutAt "/" (replaceFirst (replaceFirst raw "arn:aws:sts::" "arn:aws:iam::")
                          ":assumed-role/" ":role/").
Proof.
  unfold normalizeArn. rewrite !Replace_one. apply (truncate_cutAt "/").
Qed.

End StringFacts.

(** ** IdentityNormalizer: properties *)

Section Normalizer.

Implicit Types raw p s : string.

Lemma normalizeArn_no_slash raw : mem "/" (normalizeArn raw) = false.
Proof. rewrite normalizeArn_unfold. apply mem_cutAt. Qed.

(** A string with no slash and no sts prefix is left as it is. *)
Lemma normalizeArn_fixed s :
  mem "/" s = false → Contains s "arn:aws:sts::" = false → normalizeArn s = s.
Proof.
  intros Hs Hc. rewrite normalizeArn_unfold.
  rewrite (replaceFirst_absent _ _ _ Hc).
  rewrite (replaceFirst_no_mem "/" s ":assumed-role/" ":role/" eq_refl Hs).
  by apply cutAt_id.
Qed.

Lemma HasPrefix_app_self s t : HasPrefix (s +:+ t) s = true.
Proof.
  induction s as [|a s IH]; [apply HasPrefix_nil|].
  by rewrite append_cons, HasPrefix_cons, Ascii.eqb_refl.
Qed.

Lemma HasPrefix_same_length s a b :
  HasPrefix s a = true → HasPrefix s b = true →
  String.length a = String.length b → a = b.
Proof.
  revert s b. induction a as [|x a IH]; intros s [|y b] Ha Hb Hl; try done.
  destruct s as [|z s]; [done|]. rewrite HasPrefix_cons in Ha, Hb.
  destruct (Ascii.eqb_spec x z) as [->|]; [|done].
  destruct (Ascii.eqb_spec y z) as [->|]; [|done].
  f_equal. apply (IH s); [done..|]. simpl in Hl. lia.
Qed.

(** Replacing an instance by a different text of the same length changes
    the string. *)
Lemma replaceFirst_changes s old new :
  Contains s old = true → String.length old = String.length new → old ≠ new →
  replaceFirst s old new ≠ s.
Proof.
  intros Hc Hl Hne. induction s as [|a s IH]; rewrite replaceFirst_eq.
  - destruct (HasPrefix "" old) eqn:Hp.
    + intros He. apply Hne. apply (HasPrefix_same_length "" _ _ Hp); [|done].
      rewrite <- He at 1. apply HasPrefix_app_self.
    + unfold Contains in Hc. by rewrite Index_eq, Hp in Hc.
  - destruct (HasPrefix (String a s) old) eqn:Hp.
    + intros He. apply Hne. apply (HasPrefix_same_length _ _ _ Hp); [|done].
      rewrite <- He at 1. apply HasPrefix_app_self.
    + rewrite (Contains_cons_miss _ _ _ Hp) in Hc. intros [=He]. by apply IH.
Qed.

Lemma HasPrefix_trans s a b :
  HasPrefix s a = true → HasPrefix a b = true → HasPrefix s b = true.
Proof.
  revert s a. induction b as [|x b IH]; intros s a Ha Hb; [apply HasPrefix_nil|].
  destruct a as [|y a]; [done|]. destruct s as [|z s]; [done|].
  rewrite HasPrefix_cons in *.
  destruct (Ascii.eqb_spec x y) as [->|]; [|done].
  destruct (Ascii.eqb y z); [|done]. by apply (IH s a).
Qed.

Lemma Contains_cons_intro a s pat : Contains s pat = true → Contains (String a s) pat = true.
Proof.
  intros H. destruct (HasPrefix (String a s) pat) eqn:Hp.
  - by apply Contains_hit.
  - by rewrite Contains_cons_miss.
Qed.

(** Where the cut of a replaced string begins with [pat], the string itself
    does, for a pattern none of whose tails tells the shortened replacement
    from the text it replaces. *)
Lemma HasPrefix_cut_replace c old new pat s :
  mem c new = true → tailsSafe (cutAt c new) old pat = true →
  HasPrefix (cutAt c (replaceFirst s old new)) pat = true → HasPrefix s pat = true.
Proof.
  intros Hn. revert s. induction pat as [|a pat IH]; intros s Hsafe H;
    [apply HasPrefix_nil|].
  simpl in Hsafe. apply andb_true_iff in Hsafe as [Himp Hsafe].
  rewrite replaceFirst_eq in H. destruct (HasPrefix s old) eqn:Hp.
  - rewrite (cutAt_app_mem _ _ _ Hn) in H. rewrite H in Himp.
    by apply (HasPrefix_trans s old).
  - destruct s as [|b s]; [done|]. simpl in H.
    destruct (Ascii.eqb c b); [done|]. rewrite HasPrefix_cons in *.
    destruct (Ascii.eqb a b); [|done]. by apply IH.
Qed.

Lemma Contains_cut_replace c old new pat s :
  mem c new = true → tailsSafe (cutAt c new) old pat = true →
  Contains (cutAt c new) pat = false →
  Contains (cutAt c (replaceFirst s old new)) pat = true → Contains s pat = true.
Proof.
  intros Hn Hsafe Hnc. induction s as [|b s IH]; intros H.
  - rewrite replaceFirst_eq in H. destruct (HasPrefix "" old).
    + by rewrite (cutAt_app_mem _ _ _ Hn), Hnc in H.
    + done.
  - destruct (HasPrefix (cutAt c (replaceFirst (String b s) old new)) pat) eqn:Hh.
    { by apply Contains_hit, (HasPrefix_cut_replace c old new). }
    rewrite replaceFirst_eq in H, Hh. destruct (HasPrefix (String b s) old).
    + by rewrite (cutAt_app_mem _ _ _ Hn), Hnc in H.
    + simpl in H, Hh. destruct (Ascii.eqb c b).
      * unfold Contains in H. by rewrite Index_eq, Hh in H.
      * rewrite (Contains_cons_miss _ _ _ Hh) in H.
        by apply Contains_cons_intro, IH.
Qed.

(** A normal form holds an sts prefix only if one is left after the first
    has been replaced. *)
Lemma normalizeArn_sts_left raw :
  Contains (Replace raw "arn:aws:sts::" "arn:aws:iam::" 1) "arn:aws:sts::" = false →
  Contains (normalizeArn raw) "arn:aws:sts::" = false.
Proof.
  rewrite Replace_one, normalizeArn_unfold. intros H.
  destruct (Contains (cutAt _ _) _) eqn:Hc; [|done].
  apply (Contains_cut_replace "/" ":assumed-role/" ":role/") in Hc; [|done..].
  by rewrite H in Hc.
Qed.

(** Exactly the normal forms that still hold an sts prefix are moved by a
    second normalisation. *)
Lemma normalizeArn_idempotent_iff raw :
  normalizeArn (normalizeArn raw) = normalizeArn raw
  ↔ Contains (normalizeArn raw) "arn:aws:sts::" = false.
Proof.
  pose proof (normalizeArn_no_slash raw) as Hs.
  set (r := normalizeArn raw) in *. split.
  - intros He. destruct (Contains r "arn:aws:sts::") eqn:Hc; [exfalso|done].
    rewrite normalizeArn_unfold in He.
    assert (mem "/" (replaceFirst r "arn:aws:sts::" "arn:aws:iam::") = false) as Hm
      by (by apply mem_replaceFirst).
    rewrite (replaceFirst_no_mem "/" _ ":assumed-role/" ":role/" eq_refl Hm) in He.
    rewrite (cutAt_id _ _ Hm) in He.
    by apply (replaceFirst_changes r "arn:aws:sts::" "arn:aws:iam::").
  - by apply normalizeArn_fixed.
Qed.

End Normalizer.

(** C2 (the code departs from the claim): [normalizeArn] cuts at the first
    slash of the whole string, which is the one between the principal type
    and the name, so the name is lost together with the session:
    [arn:aws:iam::<acct>:user/<name>/<session>] becomes
    [arn:aws:iam::<acct>:user], and an assumed-role session ARN becomes
    [arn:aws:iam::<acct>:role].  No normal form holds a slash at all. *)
Theorem normalizeArn_drops_principal_name :
  normalizeArn "arn:aws:sts::123456789012:assumed-role/Admin/session-1"
    = "arn:aws:iam::123456789012:role"
  ∧ normalizeArn "arn:aws:iam::123456789012:user/alice/session-1"
    = "arn:aws:iam::123456789012:user"
  ∧ normalizeArn "arn:aws:iam::123456789012:user/alice"
    = "arn:aws:iam::123456789012:user"
  ∧ ∀ raw, mem "/" (normalizeArn raw) = false.
Proof.
  split; [by_evaluation|]. split; [by_evaluation|]. split; [by_evaluation|].
  apply normalizeArn_no_slash.
Qed.

(** For a target identity that names its principal (it contains a slash,
    as the identity of the usage example does) no record passes the identity
    filter: normal forms hold no slash. *)
Lemma slash_identity_matches_nothing (identity : string) (ev : Event) (st : State) :
  mem "/" identity = true → processRecord normalizeArn identity ev st = st.
Proof.
  intros Hid. unfold processRecord.
  destruct (String.eqb_spec (normalizeArn (Arn (UserIdentity ev))) identity) as [He|];
    [|done].
  by rewrite <- He, normalizeArn_no_slash in Hid.
Qed.

(** C5, counterexample: a second sts prefix before the first slash survives
    the first normalisation and is rewritten by the second one. *)
Lemma normalizeArn_not_idempotent :
  normalizeArn "arn:aws:sts::arn:aws:sts::1:user"
    = "arn:aws:iam::arn:aws:sts::1:user"
  ∧ normalizeArn "arn:aws:iam::arn:aws:sts::1:user"
    = "arn:aws:iam::arn:aws:iam::1:user"
  ∧ normalizeArn (normalizeArn "arn:aws:sts::arn:aws:sts::1:user")
    ≠ normalizeArn "arn:aws:sts::arn:aws:sts::1:user".
Proof.
  split; [vm_compute; reflexivity|]. split; [vm_compute; reflexivity|].
  vm_compute. discriminate.
Qed.

(** C5, as amended: normalising twice is normalising once whenever the
    normal form holds no sts prefix ["arn:aws:sts::"] any more; such a normal
    form is returned unchanged. *)
Theorem normalizeArn_idempotent (raw : string) :
  Contains (normalizeArn raw) "arn:aws:sts::" = false →
  normalizeArn (normalizeArn raw) = normalizeArn raw.
Proof.
  intros Hc. apply normalizeArn_fixed; [apply normalizeArn_no_slash|done].
Qed.

Lemma normalizeArn_idempotent_witness :
  Contains (normalizeArn "arn:aws:sts::123456789012:assumed-role/Admin/s1")
           "arn:aws:sts::" = false
  ∧ normalizeArn (normalizeArn "arn:aws:sts::123456789012:assumed-role/Admin/s1")
    = normalizeArn "arn:aws:sts::123456789012:assumed-role/Admin/s1".
Proof.
  split; [vm_compute; reflexivity|].
  apply (normalizeArn_idempotent "arn:aws:sts::123456789012:assumed-role/Admin/s1").
  vm_compute; reflexivity.
Defined.

(** In particular normalisation is idempotent on every raw identifier that
    holds the sts prefix at most once: none is left after the first
    replacement. *)
Lemma normalizeArn_idempotent_single_sts (raw : string) :
  Contains (Replace raw "arn:aws:sts::" "arn:aws:iam::" 1) "arn:aws:sts::" = false →
  normalizeArn (normalizeArn raw) = normalizeArn raw.
Proof.
  intros H. apply normalizeArn_fixed; [apply normalizeArn_no_slash|].
  by apply normalizeArn_sts_left.
Qed.

(** C6: two raw identifiers with the same leading part [p] and different
    texts after the path separator that follows it have the same normal
    form. *)
Theorem normalizeArn_session_suffix (p s1 s2 : string) :
  normalizeArn (p +:+ "/" +:+ s1) = normalizeArn (p +:+ "/" +:+ s2).
Proof.
  rewrite !normalizeArn_unfold.
  change ("/" +:+ s1) with (String "/" s1).
  change ("/" +:+ s2) with (String "/" s2).
  rewrite !(replaceFirst_app_sep "/" p _ "arn:aws:sts::" "arn:aws:iam::" eq_refl).
  change ":assumed-role/" with (":assumed-role" +:+ String "/" "").
  rewrite (cutAt_replaceFirst_sep "/" _ _ ":assumed-role" ":role/" eq_refl eq_refl).
  symmetry.
  by rewrite (cutAt_replaceFirst_sep "/" _ _ ":assumed-role" ":role/" eq_refl eq_refl).
Qed.

(** ** The order Go's [>] puts on timestamps *)

Section TimestampOrder.

Implicit Types a b c : string.

Lemma strGt_false_iff a b : strGt a b = false ↔ String.le a b.
Proof.
  unfold strGt, String.ltb, String.le, String.leb.
  rewrite (String.compare_antisym b a).
  destruct (String.compare a b); simpl; split; (done || intros []).
Qed.

Lemma strGt_true_iff a b : strGt a b = true ↔ ¬ String.le a b.
Proof. rewrite <- strGt_false_iff. by destruct (strGt a b). Qed.

Lemma strGt_irrefl a : strGt a a = false.
Proof. by apply strGt_false_iff. Qed.

(** Of two timestamps, the later one does not depend on which is asked
    about first. *)
Lemma later_comm a b : (if strGt a b then a else b) = (if strGt b a then b else a).
Proof.
  destruct (strGt a b) eqn:Hab, (strGt b a) eqn:Hba; try done.
  - apply strGt_true_iff in Hab, Hba. destruct (total String.le a b); done.
  - apply strGt_false_iff in Hab, Hba. by apply (anti_symm String.le).
Qed.

Lemma strGt_le_trans a b c : strGt a c = false → strGt b c = true → strGt a b = false.
Proof.
  rewrite !strGt_false_iff, strGt_true_iff. intros Hac Hbc.
  destruct (total String.le a b) as [|Hba]; [done|].
  destruct Hbc. by trans a.
Qed.

Lemma strGt_trans a b c : strGt a b = true → strGt b c = true → strGt a c = true.
Proof.
  intros Hab Hbc. destruct (strGt a c) eqn:Hac; [done|].
  by rewrite (strGt_le_trans a b c Hac Hbc) in Hab.
Qed.

End TimestampOrder.

(** ** ResultAggregator: the two critical sections *)

Section Aggregation.

Implicit Types st : State.
Implicit Types k t : string.

Lemma State_eq st1 st2 :
  actions st1 = actions st2 → secrets st1 = secrets st2 →
  processed st1 = processed st2 → getObjectLog st1 = getObjectLog st2 →
  st1 = st2.
Proof. destruct st1, st2; simpl; congruence. Qed.

Lemma upsertAction_eq k t st :
  upsertAction k t st
  = setActions (<[k := laterOf (actions st !! k) t]> (actions st)) st.
Proof.
  unfold upsertAction, laterOf. destruct (actions st !! k) as [prev|] eqn:Hk; [|done].
  destruct (strGt t prev); [done|].
  apply State_eq; simpl; try done. by rewrite insert_id.
Qed.

Lemma upsertAction_lookup k t st :
  actions (upsertAction k t st) !! k = Some (laterOf (actions st !! k) t).
Proof. rewrite upsertAction_eq. simpl. apply lookup_insert_eq. Qed.

Lemma upsertAction_lookup_ne k k' t st :
  k ≠ k' → actions (upsertAction k t st) !! k' = actions st !! k'.
Proof. intros Hne. rewrite upsertAction_eq. simpl. by apply lookup_insert_ne. Qed.

Lemma laterOf_laterOf cur t1 t2 :
  laterOf (Some (laterOf cur t1)) t2 = laterOf (Some (laterOf cur t2)) t1.
Proof.
  destruct cur as [p|]; simpl; [|apply later_comm].
  destruct (strGt t1 p) eqn:H1, (strGt t2 p) eqn:H2; rewrite ?H1, ?H2; try done.
  - apply later_comm.
  - by rewrite (strGt_le_trans t2 t1 p H2 H1).
  - by rewrite (strGt_le_trans t1 t2 p H1 H2).
Qed.

Lemma upsertAction_comm k1 t1 k2 t2 st :
  upsertAction k2 t2 (upsertAction k1 t1 st)
  = upsertAction k1 t1 (upsertAction k2 t2 st).
Proof.
  rewrite !upsertAction_eq. apply State_eq; simpl; try done.
  destruct (decide (k1 = k2)) as [->|Hne].
  - rewrite !lookup_insert_eq, !insert_insert_eq. f_equal. apply laterOf_laterOf.
  - rewrite !lookup_insert_ne by done. by apply insert_insert_ne.
Qed.

Lemma addSecret_comm a b st :
  addSecret b (addSecret a st) = addSecret a (addSecret b st).
Proof.
  apply State_eq; simpl; try done.
  rewrite !(assoc_L (∪)). f_equal. apply (comm_L (∪)).
Qed.

Lemma upsertAction_addSecret k t a st :
  addSecret a (upsertAction k t st) = upsertAction k t (addSecret a st).
Proof. rewrite !upsertAction_eq. by apply State_eq. Qed.

Lemma applyOp_comm st o1 o2 :
  applyOp (applyOp st o1) o2 = applyOp (applyOp st o2) o1.
Proof.
  destruct o1, o2; simpl.
  - apply upsertAction_comm.
  - apply upsertAction_addSecret.
  - symmetry. apply upsertAction_addSecret.
  - apply addSecret_comm.
Qed.

(** A left fold whose steps commute gives the same result on every
    rearrangement of its input. *)
Lemma fold_left_comm_Permutation {A B} (f : A → B → A) (l l' : list B) :
  (∀ a x y, f (f a x) y = f (f a y) x) →
  l ≡ₚ l' → ∀ a, fold_left f l a = fold_left f l' a.
Proof.
  intros Hf Hp. induction Hp as [|x l l' _ IH|x y l|l l' l'' _ IH1 _ IH2];
    intros a; simpl.
  - done.
  - apply IH.
  - by rewrite Hf.
  - by rewrite IH1.
Qed.

(** Critical sections may be taken in any order. *)
Lemma applyOps_Permutation (ops ops' : list Op) st :
  ops ≡ₚ ops' → fold_left applyOp ops st = fold_left applyOp ops' st.
Proof. intros Hp. by apply fold_left_comm_Permutation; [apply applyOp_comm|]. Qed.

End Aggregation.

(** ** LogRecordProcessor: properties *)

Section Processor.

Context (env : Env) (normalize : string → string).
Implicit Types st : State.
Implicit Types ev : Event.
Implicit Types identity bucket key : string.

Lemma processRecord_ops identity ev st :
  processRecord normalize identity ev st
  = fold_left applyOp (recordOps normalize identity ev) st.
Proof.
  unfold processRecord, recordOps.
  destruct (negb _ || bool_decide _); [done|]. simpl.
  destruct (Contains _ _ && _); [|done].
  by destruct (assertString _).
Qed.

Lemma processRecord_filtered identity ev st :
  passesFilters normalize identity ev = false →
  processRecord normalize identity ev st = st.
Proof.
  unfold passesFilters, processRecord. intros H.
  destruct (String.eqb _ identity), (bool_decide _); done.
Qed.

Lemma recordOps_pass identity ev :
  passesFilters normalize identity ev = true →
  ∃ tail, recordOps normalize identity ev
          = OpUpsert (actionOf ev) (EventTime ev) :: tail
          ∧ ∀ st, actions (fold_left applyOp tail st) = actions st.
Proof.
  unfold passesFilters, recordOps. intros H.
  destruct (String.eqb _ identity), (bool_decide _); try done. simpl.
  eexists; split; [done|]. intros st.
  destruct (Contains _ _ && _); [|done]. by destruct (assertString _).
Qed.

Lemma actions_processRecord_pass identity ev st :
  passesFilters normalize identity ev = true →
  actions (processRecord normalize identity ev st)
  = actions (upsertAction (actionOf ev) (EventTime ev) st).
Proof.
  intros H. rewrite processRecord_ops.
  destruct (recordOps_pass identity ev H) as (tail & -> & Ht). simpl. apply Ht.
Qed.

Lemma processRecord_secret identity ev sid st :
  passesFilters normalize identity ev = true → secretRetrieval ev sid →
  sid ∈ secrets (processRecord normalize identity ev st).
Proof.
  unfold passesFilters, processRecord. intros H (Hsrc & Hname & Hsid).
  destruct (String.eqb _ identity), (bool_decide _); try done. simpl.
  rewrite Hsrc, Hname, Hsid. simpl. set_solver.
Qed.

Lemma fold_processRecord_ops identity (evs : list Event) st :
  fold_left (λ st ev, processRecord normalize identity ev st) evs st
  = fold_left applyOp (flat_map (recordOps normalize identity) evs) st.
Proof.
  revert st. induction evs as [|ev evs IH]; intros st; simpl; [done|].
  by rewrite fold_left_app, IH, processRecord_ops.
Qed.

(** Records may be folded in any order. *)
Lemma fold_processRecord_Permutation identity (evs evs' : list Event) st :
  evs ≡ₚ evs' →
  fold_left (λ st ev, processRecord normalize identity ev st) evs st
  = fold_left (λ st ev, processRecord normalize identity ev st) evs' st.
Proof.
  intros Hp. rewrite !fold_processRecord_ops.
  apply applyOps_Permutation. by apply Permutation_flat_map.
Qed.

(** [process] is the fold of [processRecord] over the records the object
    yields, after the request has been logged. *)
Lemma fold_processRaw identity (records : list (RawMessage env)) st :
  fold_left (processRaw env normalize identity) records st
  = fold_left (λ st ev, processRecord normalize identity ev st)
              (omap (unmarshalEvent env) records) st.
Proof.
  revert st. induction records as [|raw records IH]; intros st; [done|].
  simpl. unfold processRaw at 2.
  destruct (unmarshalEvent env raw); simpl; apply IH.
Qed.

Lemma process_eq bucket key identity st :
  process env normalize bucket key identity st
  = fold_left (λ st ev, processRecord normalize identity ev st)
              (objectEvents env bucket key) (logGetObject bucket key st).
Proof.
  unfold process, objectEvents.
  destruct (GetObject env bucket key) as [body|]; [|done].
  destruct (gzipNewReader env body) as [gz|]; [|done].
  destruct (decodeWrapper env gz) as [records|]; [|done].
  apply fold_processRaw.
Qed.

(** The result maps after a critical section depend on the result maps
    before it only. *)
Lemma applyOp_results st1 st2 o :
  resultsOf st1 = resultsOf st2 →
  resultsOf (applyOp st1 o) = resultsOf (applyOp st2 o).
Proof.
  unfold resultsOf. intros [= Ha Hs]. destruct o; simpl.
  - rewrite !upsertAction_eq. simpl. by rewrite Ha, Hs.
  - by rewrite Ha, Hs.
Qed.

Lemma applyOps_results (ops : list Op) st1 st2 :
  resultsOf st1 = resultsOf st2 →
  resultsOf (fold_left applyOp ops st1) = resultsOf (fold_left applyOp ops st2).
Proof.
  revert st1 st2. induction ops as [|o ops IH]; intros st1 st2 H; [done|].
  simpl. by apply IH, applyOp_results.
Qed.

(** A worker's pass over [keys] leaves the result maps the fold of
    [processRecord] over the records of those objects leaves. *)
Lemma worker_results bucket identity (keys : list string) st1 st2 :
  resultsOf st1 = resultsOf st2 →
  resultsOf (worker env normalize bucket identity keys st1)
  = resultsOf (fold_left (λ st ev, processRecord normalize identity ev st)
                         (flat_map (objectEvents env bucket) keys) st2).
Proof.
  revert st1 st2. induction keys as [|key keys IH]; intros st1 st2 H; [done|].
  simpl. rewrite fold_left_app. apply IH.
  unfold workerStep. rewrite process_eq, !fold_processRecord_ops.
  transitivity (resultsOf (fold_left applyOp
    (flat_map (recordOps normalize identity) (objectEvents env bucket key))
    (logGetObject bucket key st1))); [done|].
  by apply applyOps_results.
Qed.

(** Files may be handed to the worker in any order. *)
Lemma worker_Permutation bucket identity (keys keys' : list string) st :
  keys ≡ₚ keys' →
  resultsOf (worker env normalize bucket identity keys st)
  = resultsOf (worker env normalize bucket identity keys' st).
Proof.
  intros Hp. rewrite !(worker_results _ _ _ st st eq_refl).
  f_equal. apply fold_processRecord_Permutation. by apply Permutation_flat_map.
Qed.

End Processor.

(** C1, counterexample: the secret check stands behind the [continue] of
    the two filters.  A retrieval of ["prod/db"] by the target that carries an
    error code, and a successful one by another principal, are both secret
    retrievals in the sense of the claim, and neither adds ["prod/db"]. *)
Lemma secret_retrieval_filtered_out :
  normalizeArn aliceArn = targetIdentity
  ∧ secretRetrieval failedRetrieval "prod/db"
  ∧ ("prod/db" ∉ secrets (processRecord normalizeArn targetIdentity
                                        failedRetrieval initState))
  ∧ secretRetrieval foreignRetrieval "prod/db"
  ∧ "prod/db" ∉ secrets (processRecord normalizeArn targetIdentity
                                       foreignRetrieval initState).
Proof.
  split; [by_evaluation|].
  split; [repeat split; by_evaluation|].
  split; [rewrite processRecord_filtered by by_evaluation; set_solver|].
  split; [repeat split; by_evaluation|].
  rewrite processRecord_filtered by by_evaluation. set_solver.
Qed.

(** C1, as amended: a record that carries no error indicator and whose
    normalised acting principal equals the target identity, whose service
    namespace contains ["secretsmanager"], whose operation is
    ["GetSecretValue"] and whose request parameters hold a string under
    ["secretId"], adds that string to the secret set. *)
Theorem secret_recorded_when_filters_pass (identity : string) (ev : Event)
    (sid : string) (st : State) :
  passesFilters normalizeArn identity ev = true →
  secretRetrieval ev sid →
  sid ∈ secrets (processRecord normalizeArn identity ev st).
Proof. apply processRecord_secret. Qed.

Lemma secret_recorded_when_filters_pass_witness :
  passesFilters normalizeArn targetIdentity ownRetrieval = true
  ∧ secretRetrieval ownRetrieval "prod/db"
  ∧ "prod/db" ∈ secrets (processRecord normalizeArn targetIdentity
                                       ownRetrieval initState).
Proof.
  assert (passesFilters normalizeArn targetIdentity ownRetrieval = true)
    as Hp by by_evaluation.
  assert (secretRetrieval ownRetrieval "prod/db")
    as Hs by (repeat split; by_evaluation).
  split; [exact Hp|]. split; [exact Hs|].
  exact (secret_recorded_when_filters_pass targetIdentity ownRetrieval "prod/db"
           initState Hp Hs).
Defined.

(** The same gate in the two earlier revisions of [process], whose
    normalisation is written inline. *)
Lemma inline_secret_recorded (identity : string) (ev : Event)
    (sid : string) (st : State) :
  passesFilters inlineNormalize identity ev = true →
  secretRetrieval ev sid →
  sid ∈ secrets (processRecord inlineNormalize identity ev st).
Proof. apply processRecord_secret. Qed.

Lemma inline_secret_filtered_out :
  secretRetrieval foreignRetrieval "prod/db"
  ∧ "prod/db" ∉ secrets (processRecord inlineNormalize targetIdentity
                                       foreignRetrieval initState).
Proof.
  split; [repeat split; by_evaluation|].
  rewrite processRecord_filtered by by_evaluation. set_solver.
Qed.

(** C7: a record with a non-nil [errorCode] leaves the state as it is, so
    it adds no ledger entry and updates no timestamp, whatever its principal
    and operation are. *)
Theorem error_record_leaves_ledger (identity : string) (ev : Event) (st : State) :
  is_Some (ErrorCode ev) →
  processRecord normalizeArn identity ev st = st
  ∧ actions (processRecord normalizeArn identity ev st) = actions st.
Proof.
  intros He. assert (processRecord normalizeArn identity ev st = st) as ->; [|done].
  apply processRecord_filtered. unfold passesFilters.
  rewrite (bool_decide_eq_true_2 _ He). simpl. apply andb_false_r.
Qed.

(** Scenario B of the specification: the identity matches, the error code
    is set, the ledger stays empty. *)
Lemma error_record_leaves_ledger_witness :
  is_Some (ErrorCode failedCall)
  ∧ normalizeArn (Arn (UserIdentity failedCall)) = targetIdentity
  ∧ processRecord normalizeArn targetIdentity failedCall initState = initState
  ∧ actions (processRecord normalizeArn targetIdentity failedCall initState) = ∅.
Proof.
  assert (is_Some (ErrorCode failedCall)) as He by (simpl; eauto).
  split; [exact He|]. split; [by_evaluation|].
  exact (error_record_leaves_ledger targetIdentity failedCall initState He).
Defined.

(** C10: the empty string normalises to itself, so a record whose
    [userIdentity.arn] is absent or empty is rejected by the identity filter
    of every non-empty target and leaves the ledger (and the rest of the
    state) as it is. *)
Theorem empty_arn_contributes_nothing (identity : string) (ev : Event) (st : State) :
  identity ≠ "" →
  Arn (UserIdentity ev) = "" →
  normalizeArn "" = ""
  ∧ processRecord normalizeArn identity ev st = st
  ∧ actions (processRecord normalizeArn identity ev st) = actions st.
Proof.
  intros Hid Harn. split; [reflexivity|].
  assert (processRecord normalizeArn identity ev st = st) as ->; [|done].
  apply processRecord_filtered. unfold passesFilters. rewrite Harn.
  change (normalizeArn "") with "".
  destruct (String.eqb_spec "" identity) as [<-|]; [done|done].
Qed.

Lemma empty_arn_contributes_nothing_witness :
  targetIdentity ≠ ""
  ∧ Arn (UserIdentity anonymousCall) = ""
  ∧ normalizeArn "" = ""
  ∧ processRecord normalizeArn targetIdentity anonymousCall initState = initState
  ∧ actions (processRecord normalizeArn targetIdentity anonymousCall initState)
    = actions initState.
Proof.
  assert (targetIdentity ≠ "") as Hid by discriminate.
  split; [exact Hid|]. split; [reflexivity|].
  exact (empty_arn_contributes_nothing targetIdentity anonymousCall initState
           Hid eq_refl).
Defined.

(** The two earlier revisions of [process] filter in the same way. *)
Lemma inline_error_record_skipped (identity : string) (ev : Event) (st : State) :
  is_Some (ErrorCode ev) → processRecord inlineNormalize identity ev st = st.
Proof.
  intros He. apply processRecord_filtered. unfold passesFilters.
  rewrite (bool_decide_eq_true_2 _ He). simpl. apply andb_false_r.
Qed.

Lemma inline_empty_arn_skipped (identity : string) (ev : Event)
    (st : State) :
  identity ≠ "" → Arn (UserIdentity ev) = "" →
  processRecord inlineNormalize identity ev st = st.
Proof.
  intros Hid Harn. apply processRecord_filtered. unfold passesFilters.
  rewrite Harn. change (inlineNormalize "") with "".
  destruct (String.eqb_spec "" identity) as [<-|]; [done|done].
Qed.

Lemma laterOf_upper (cur : option string) (t : string) :
  (∀ prev, cur = Some prev → strGt prev t = false) → laterOf cur t = t.
Proof.
  destruct cur as [prev|]; [|done]. intros H. simpl.
  destruct (strGt t prev) eqn:Ht; [done|].
  pose proof (later_comm t prev) as Hc. by rewrite Ht, (H prev eq_refl) in Hc.
Qed.

(** C3: two records that pass both filters and have the same operation
    key, with timestamps [T1 < T2] in byte-wise string order, leave [T2]
    under that key whichever of them is processed first; the ledger they
    start from holds nothing later than [T2] under the key. *)
Theorem last_write_wins (identity : string) (r1 r2 : Event) (k : string) (st : State) :
  passesFilters normalizeArn identity r1 = true →
  passesFilters normalizeArn identity r2 = true →
  actionOf r1 = k → actionOf r2 = k →
  String.ltb (EventTime r1) (EventTime r2) = true →
  (∀ prev, actions st !! k = Some prev → strGt prev (EventTime r2) = false) →
  actions (processRecord normalizeArn identity r2
             (processRecord normalizeArn identity r1 st)) !! k = Some (EventTime r2)
  ∧ actions (processRecord normalizeArn identity r1
               (processRecord normalizeArn identity r2 st)) !! k = Some (EventTime r2).
Proof.
  intros H1 H2 Hk1 Hk2 Hlt Hst.
  rewrite !actions_processRecord_pass by done. rewrite Hk1, Hk2.
  rewrite !upsertAction_lookup.
  rewrite !(actions_processRecord_pass _ _ _ _ H1), !(actions_processRecord_pass _ _ _ _ H2).
  rewrite Hk1, Hk2, !upsertAction_lookup.
  assert (strGt (EventTime r1) (EventTime r2) = false) as Hge.
  { destruct (strGt (EventTime r1) (EventTime r2)) eqn:Hg; [|done].
    pose proof (strGt_trans _ _ _ Hg Hlt) as Hx. by rewrite strGt_irrefl in Hx. }
  split; f_equal.
  - apply laterOf_upper. intros prev [= <-].
    destruct (actions st !! k) as [p|] eqn:Hp; simpl; [|done].
    destruct (strGt (EventTime r1) p); [done|]. by apply Hst.
  - rewrite (laterOf_upper _ _ Hst). simpl.
    change (strGt (EventTime r1) (EventTime r2)) with
      (String.ltb (EventTime r2) (EventTime r1)) in Hge.
    unfold strGt. by rewrite Hge.
Qed.

(** Scenario A of the specification, in both orders. *)
Lemma last_write_wins_witness :
  passesFilters normalizeArn targetIdentity firstCall = true
  ∧ passesFilters normalizeArn targetIdentity secondCall = true
  ∧ actionOf firstCall = "ec2:DescribeInstances"
  ∧ actionOf secondCall = "ec2:DescribeInstances"
  ∧ String.ltb (EventTime firstCall) (EventTime secondCall) = true
  ∧ actions (processRecord normalizeArn targetIdentity secondCall
               (processRecord normalizeArn targetIdentity firstCall initState))
      !! "ec2:DescribeInstances" = Some "2024-01-15T10:30:00Z"
  ∧ actions (processRecord normalizeArn targetIdentity firstCall
               (processRecord normalizeArn targetIdentity secondCall initState))
      !! "ec2:DescribeInstances" = Some "2024-01-15T10:30:00Z".
Proof.
  assert (passesFilters normalizeArn targetIdentity firstCall = true)
    as H1 by by_evaluation.
  assert (passesFilters normalizeArn targetIdentity secondCall = true)
    as H2 by by_evaluation.
  assert (actionOf firstCall = "ec2:DescribeInstances") as Hk1 by by_evaluation.
  assert (actionOf secondCall = "ec2:DescribeInstances") as Hk2 by by_evaluation.
  assert (String.ltb (EventTime firstCall) (EventTime secondCall) = true)
    as Hlt by by_evaluation.
  assert (∀ prev, actions initState !! "ec2:DescribeInstances" = Some prev →
                  strGt prev (EventTime secondCall) = false) as Hst
    by (intros prev H; simpl in H; by rewrite lookup_empty in H).
  repeat (split; [assumption|]).
  exact (last_write_wins targetIdentity firstCall secondCall
           "ec2:DescribeInstances" initState H1 H2 Hk1 Hk2 Hlt Hst).
Defined.

(** C4: folding the records of a set of log files into the aggregation in
    any order [evs'] leaves the ledger and the secret set that a worker
    leaves when it takes the files one after the other. *)
Theorem aggregation_order_independent (env : Env) (bucket identity : string)
    (keys : list string) (evs' : list Event) (st : State) :
  evs' ≡ₚ flat_map (objectEvents env bucket) keys →
  actions (fold_left (λ st ev, processRecord normalizeArn identity ev st) evs' st)
  = actions (worker env normalizeArn bucket identity keys st)
  ∧ secrets (fold_left (λ st ev, processRecord normalizeArn identity ev st) evs' st)
    = secrets (worker env normalizeArn bucket identity keys st).
Proof.
  intros Hp.
  assert (resultsOf (worker env normalizeArn bucket identity keys st)
          = resultsOf (fold_left (λ st ev, processRecord normalizeArn identity ev st)
                                 evs' st)) as [= Ha Hs]; [|done].
  rewrite (fold_processRecord_Permutation normalizeArn identity _ _ st Hp).
  by apply worker_results.
Qed.

Lemma aggregation_order_independent_witness :
  [secondCall; secondCall; firstCall; firstCall]
    ≡ₚ flat_map (objectEvents sampleEnv "trail") sampleKeys
  ∧ actions (fold_left (λ st ev, processRecord normalizeArn targetIdentity ev st)
                       [secondCall; secondCall; firstCall; firstCall] initState)
    = actions (worker sampleEnv normalizeArn "trail" targetIdentity sampleKeys initState)
  ∧ secrets (fold_left (λ st ev, processRecord normalizeArn targetIdentity ev st)
                       [secondCall; secondCall; firstCall; firstCall] initState)
    = secrets (worker sampleEnv normalizeArn "trail" targetIdentity sampleKeys initState).
Proof.
  assert ([secondCall; secondCall; firstCall; firstCall]
          ≡ₚ flat_map (objectEvents sampleEnv "trail") sampleKeys) as Hp.
  { change (flat_map (objectEvents sampleEnv "trail") sampleKeys)
      with [firstCall; secondCall; firstCall; secondCall].
    etrans; [apply perm_skip, perm_swap|]. etrans; [apply perm_swap|].
    apply perm_skip, perm_skip, perm_swap. }
  split; [exact Hp|].
  exact (aggregation_order_independent sampleEnv "trail" targetIdentity
           sampleKeys _ initState Hp).
Defined.

(** The same at the grain of the critical sections: every interleaving of
    the workers' ledger updates and secret insertions leaves the result maps
    of the sequential pass. *)
Lemma critical_sections_any_order (env : Env) (bucket identity : string)
    (keys : list string) (ops : list Op) (st : State) :
  ops ≡ₚ flat_map (recordOps normalizeArn identity)
                  (flat_map (objectEvents env bucket) keys) →
  resultsOf (fold_left applyOp ops st)
  = resultsOf (worker env normalizeArn bucket identity keys st).
Proof.
  intros Hp. rewrite (applyOps_Permutation _ _ st Hp).
  rewrite <- fold_processRecord_ops. symmetry. by apply worker_results.
Qed.

(** C9: when the fetch, the gzip header or the top-level decode of an
    object fails, [process] has issued its one [GetObject] request and
    returns with the ledger and the secret set as they were; the worker
    counts the object and goes on with the keys that remain. *)
Theorem failed_object_skipped (env : Env) (bucket identity key : string)
    (rest : list string) (st : State) :
  (GetObject env bucket key = None
   ∨ (∃ body, GetObject env bucket key = Some body
              ∧ gzipNewReader env body = None)
   ∨ (∃ body gz, GetObject env bucket key = Some body
                 ∧ gzipNewReader env body = Some gz
                 ∧ decodeWrapper env gz = None)) →
  let st' := process env normalizeArn bucket key identity st in
  actions st' = actions st
  ∧ secrets st' = secrets st
  ∧ getObjectLog st' = getObjectLog st ++ [(bucket, key)]
  ∧ processed (workerStep env normalizeArn bucket identity st key)
    = AddInt64 (processed st) 1
  ∧ worker env normalizeArn bucket identity (key :: rest) st
    = worker env normalizeArn bucket identity rest
        (setProcessed (AddInt64 (processed st) 1) (logGetObject bucket key st)).
Proof.
  intros Hfail st'.
  assert (st' = logGetObject bucket key st) as Hst'.
  { unfold st', process.
    destruct Hfail as [-> | [(body & -> & ->) | (body & gz & -> & -> & ->)]]; done. }
  unfold worker at 1, workerStep. simpl. fold st'. by rewrite Hst'.
Qed.

(** Scenario D of the specification: an object that is not a gzip stream. *)
Lemma failed_object_skipped_witness :
  (∃ body, GetObject sampleEnv "trail" "bad.json.gz" = Some body
           ∧ gzipNewReader sampleEnv body = None)
  ∧ actions (process sampleEnv normalizeArn "trail" "bad.json.gz"
                     targetIdentity initState) = ∅
  ∧ secrets (process sampleEnv normalizeArn "trail" "bad.json.gz"
                     targetIdentity initState) = ∅
  ∧ getObjectLog (process sampleEnv normalizeArn "trail" "bad.json.gz"
                          targetIdentity initState) = [("trail", "bad.json.gz")]
  ∧ processed (workerStep sampleEnv normalizeArn "trail" targetIdentity initState
                          "bad.json.gz") = 1
  ∧ worker sampleEnv normalizeArn "trail" targetIdentity
           ["bad.json.gz"; "a.json.gz"] initState
    = worker sampleEnv normalizeArn "trail" targetIdentity ["a.json.gz"]
        (setProcessed 1 (logGetObject "trail" "bad.json.gz" initState)).
Proof.
  assert (∃ body, GetObject sampleEnv "trail" "bad.json.gz" = Some body
                  ∧ gzipNewReader sampleEnv body = None) as Hgz
    by (exists "bad.json.gz"; split; reflexivity).
  split; [exact Hgz|].
  exact (failed_object_skipped sampleEnv "trail" targetIdentity "bad.json.gz"
           ["a.json.gz"] initState (or_intror (or_introl Hgz))).
Defined.

(** ** ObjectLister: properties *)

Section Listing.

Context (pages : string → list PageResult).

Lemma keysAccounted_init prefixes :
  keysAccounted pages prefixes (listInit pages prefixes).
Proof.
  intros i pref k Hi Hk. right. exists (pages pref). split; [|done].
  unfold listInit; simpl. by rewrite list_lookup_fmap, Hi.
Qed.

Lemma keysAccounted_step prefixes st j :
  keysAccounted pages prefixes st → keysAccounted pages prefixes (listerStep st j).
Proof.
  intros Hinv i pref k Hi Hk. specialize (Hinv i pref k Hi Hk).
  unfold listerStep.
  destruct (listers st !! j) as [[[|[contents|] rest]|]|] eqn:Hj; simpl; try done.
  - destruct Hinv as [|(r & Hr & Hkr)]; [by left|].
    destruct (decide (i = j)) as [->|Hne].
    + rewrite Hj in Hr. injection Hr as <-. by apply elem_of_nil in Hkr.
    + right. exists r. by rewrite list_lookup_insert_ne.
  - destruct Hinv as [|(r & Hr & Hkr)]; [left; set_solver|].
    destruct (decide (i = j)) as [->|Hne].
    + rewrite Hj in Hr. injection Hr as <-. simpl in Hkr.
      apply elem_of_app in Hkr as [|]; [left; set_solver|].
      right. exists rest. split; [|done].
      apply list_lookup_insert_eq. by eapply lookup_lt_Some.
    + right. exists r. by rewrite list_lookup_insert_ne.
  - destruct Hinv as [|(r & Hr & Hkr)]; [by left|].
    destruct (decide (i = j)) as [->|Hne].
    + rewrite Hj in Hr. injection Hr as <-. by apply elem_of_nil in Hkr.
    + right. exists r. by rewrite list_lookup_insert_ne.
Qed.

Lemma keysAccounted_run prefixes sched st :
  keysAccounted pages prefixes st →
  keysAccounted pages prefixes (runListers sched st).
Proof.
  revert st. induction sched as [|j sched IH]; intros st H; [done|].
  simpl. by apply IH, keysAccounted_step.
Qed.

(** The listing phase of [run] (latest revision): once every goroutine has
    returned, [allKeys] holds the pages each shard delivered before its
    first error, and so every key of every error-free shard. *)
Lemma run_listing_keeps_pages (prefixes : list string) (sched : list nat)
    (pref k : string) :
  listersDone (runListers sched (listInit pages prefixes)) = true →
  pref ∈ prefixes → k ∈ collected (pages pref) →
  k ∈ allKeys (runListers sched (listInit pages prefixes)).
Proof.
  intros Hdone Hpref Hk. apply list_elem_of_lookup in Hpref as [i Hi].
  destruct (keysAccounted_run prefixes sched _ (keysAccounted_init prefixes)
              i pref k Hi Hk) as [|(rest & Hr & _)]; [done|].
  unfold listersDone in Hdone. rewrite forallb_forall in Hdone.
  apply list_elem_of_lookup_2, list_elem_of_In, Hdone in Hr. done.
Qed.

Lemma collected_errorFree (ps : list PageResult) (contents : list string) k :
  errorFree ps = true → Page contents ∈ ps → k ∈ contents → k ∈ collected ps.
Proof.
  induction ps as [|[c|] ps IH]; simpl; intros He Hin Hk.
  - by apply elem_of_nil in Hin.
  - apply elem_of_cons in Hin as [[= ->]|Hin]; [set_solver|].
    apply elem_of_app. right. by apply IH.
  - done.
Qed.

(** Every key of every page of an error-free shard is listed. *)
Lemma run_listing_error_free_shard (prefixes : list string) (sched : list nat)
    (pref : string) (contents : list string) (k : string) :
  listersDone (runListers sched (listInit pages prefixes)) = true →
  pref ∈ prefixes → errorFree (pages pref) = true →
  Page contents ∈ pages pref → k ∈ contents →
  k ∈ allKeys (runListers sched (listInit pages prefixes)).
Proof.
  intros Hdone Hpref He Hpage Hk.
  apply (run_listing_keeps_pages prefixes sched pref); [done..|].
  by apply (collected_errorFree _ contents).
Qed.

End Listing.

(** The pool of the earlier revision on [samplePages] with one worker: the
    three states it can be in. *)
Lemma runPool_sample_states (sched : list nat) :
  runPool samplePages sched (poolInit samplePrefixes 1)
  = poolInit samplePrefixes 1
  ∨ runPool samplePages sched (poolInit samplePrefixes 1)
    = {| jobs := ["AWSLogs/b/"]; all := []; workers := [ListingShard [PageErr]] |}
  ∨ runPool samplePages sched (poolInit samplePrefixes 1)
    = {| jobs := ["AWSLogs/b/"]; all := []; workers := [Exited] |}.
Proof.
  unfold runPool.
  induction sched as [|i sched IH] using rev_ind; [by left|].
  rewrite fold_left_app. simpl.
  destruct IH as [-> | [-> | ->]]; destruct i as [|i]; auto.
Qed.

(** C8 (the code departs from the claim in [listKeysParallel]): with one
    worker, an error on the first page of shard ["AWSLogs/a/"] ends the only
    worker; shard ["AWSLogs/b/"], which lists without error, stays in the
    channel and none of its keys is returned.  Some schedule completes, and
    every completed schedule returns the empty list. *)
Theorem listKeysParallel_abandons_queued_shards :
  errorFree (samplePages "AWSLogs/b/") = true
  ∧ "AWSLogs/b/log1.json.gz" ∈ collected (samplePages "AWSLogs/b/")
  ∧ poolDone (runPool samplePages [0; 0]%nat (poolInit samplePrefixes 1)) = true
  ∧ ∀ sched,
      poolDone (runPool samplePages sched (poolInit samplePrefixes 1)) = true →
      listKeysParallel samplePages (Some samplePrefixes) "AWSLogs/" 1 sched
      = Some [].
Proof.
  split; [reflexivity|]. split; [vm_compute; set_solver|].
  split; [reflexivity|]. intros sched Hdone.
  unfold listKeysParallel, samplePrefixes at 1. f_equal.
  destruct (runPool_sample_states sched) as [H | [H | H]];
    rewrite H in Hdone |- *; done.
Qed.

(** On the same listing, the latest revision's goroutine per prefix keeps
    the key of the error-free shard under every completed schedule, and some
    schedule completes. *)
Lemma run_listing_sample :
  listersDone (runListers [0; 1; 1]%nat (listInit samplePages samplePrefixes)) = true
  ∧ ∀ sched,
      listersDone (runListers sched (listInit samplePages samplePrefixes)) = true →
      "AWSLogs/b/log1.json.gz"
      ∈ allKeys (runListers sched (listInit samplePages samplePrefixes)).
Proof.
  split; [reflexivity|]. intros sched Hdone.
  apply (run_listing_keeps_pages samplePages _ _ "AWSLogs/b/"); [done| |].
  - set_solver.
  - vm_compute. set_solver.
Qed.

(** * Further properties of the program *)

#[local] Set Warnings "-clear-no-such-hyp".

(** ** The normalisation of the earlier revisions, and the target identity *)

Section NormalizerMore.

Implicit Types raw p s : string.

Lemma hd_genSplit_cutAt c cnt s :
  hd "" (genSplit (S cnt) s (String c "")) = cutAt c s.
Proof.
  rewrite <- truncate_cutAt. cbv zeta. simpl genSplit.
  pose proof (Index_lower s (String c "")) as Hl.
  destruct (Z.ltb_spec (Index s (String c "")) 0) as [Hn|Hn].
  - assert ((Index s (String c "") =? -1) = true) as -> by (apply Z.eqb_eq; lia). done.
  - assert ((Index s (String c "") =? -1) = false) as -> by (apply Z.eqb_neq; lia). done.
Qed.

Lemma hd_SplitN_two c s : hd "" (SplitN s (String c "") 2) = cutAt c s.
Proof. apply (hd_genSplit_cutAt c 0). Qed.

Lemma hd_Split c s : hd "" (Split s (String c "")) = cutAt c s.
Proof.
  unfold Split, SplitN. simpl. destruct s as [|a s]; [done|].
  apply (hd_genSplit_cutAt c).
Qed.

(** A replacement whose pattern and text both begin with the byte [c]
    leaves the text before the first [c] as it was. *)
Lemma cutAt_replaceFirst_behind c old new s :
  cutAt c (replaceFirst s (String c old) (String c new)) = cutAt c s.
Proof.
  induction s as [|a s IH]; rewrite replaceFirst_eq.
  - by rewrite HasPrefix_nil_l.
  - rewrite HasPrefix_cons. destruct (Ascii.eqb c a) eqn:Hc.
    + destruct (HasPrefix s old); rewrite ?append_cons; simpl;
        by rewrite ?Hc, ?Ascii.eqb_refl.
    + simpl. by rewrite Hc, IH.
Qed.

Lemma normalizeArn_app_sep p s :
  normalizeArn (p +:+ String "/" s) = normalizeArn (p +:+ "/").
Proof.
  rewrite !normalizeArn_unfold.
  rewrite !(replaceFirst_app_sep "/" p _ "arn:aws:sts::" "arn:aws:iam::" eq_refl).
  change ":assumed-role/" with (":assumed-role" +:+ String "/" "").
  rewrite (cutAt_replaceFirst_sep "/" _ _ ":assumed-role" ":role/" eq_refl eq_refl).
  symmetry.
  by rewrite (cutAt_replaceFirst_sep "/" _ _ ":assumed-role" ":role/" eq_refl eq_refl).
Qed.

Lemma inlineNormalize_unfold raw :
  inlineNormalize raw = cutAt "/" (replaceFirst raw "arn:aws:sts::" "arn:aws:iam::").
Proof.
  unfold inlineNormalize. rewrite !Replace_one, (hd_SplitN_two "/").
  apply (cutAt_replaceFirst_behind "/" "assumed-role" "role").
Qed.

Lemma inlineNormalize_no_slash raw : mem "/" (inlineNormalize raw) = false.
Proof. rewrite inlineNormalize_unfold. apply mem_cutAt. Qed.

End NormalizerMore.

(** X1: in the two earlier revisions the replacement of ["/assumed-role"]
    by ["/role"] never shows in the result: the pattern begins at a slash,
    and the slice kept ends before the first slash.  The inline expression
    is the text before the first slash of the sts-rewritten identifier. *)
Theorem inlineNormalize_assumed_role_dead (raw : string) :
  inlineNormalize raw
  = hd "" (SplitN (Replace raw "arn:aws:sts::" "arn:aws:iam::" 1) "/" 2).
Proof.
  rewrite inlineNormalize_unfold, Replace_one. symmetry. apply (hd_SplitN_two "/").
Qed.

(** X2: the latest revision and the earlier ones normalise alike every
    identifier in which, once the sts prefix is rewritten, no
    [":assumed-role/"] is found. *)
Theorem normalizeArn_agrees_with_inline (raw : string) :
  Contains (Replace raw "arn:aws:sts::" "arn:aws:iam::" 1) ":assumed-role/" = false →
  normalizeArn raw = inlineNormalize raw.
Proof.
  rewrite Replace_one. intros H.
  by rewrite normalizeArn_unfold, inlineNormalize_unfold, (replaceFirst_absent _ _ _ H).
Qed.

Lemma normalizeArn_agrees_with_inline_witness :
  Contains (Replace aliceArn "arn:aws:sts::" "arn:aws:iam::" 1) ":assumed-role/" = false
  ∧ normalizeArn aliceArn = inlineNormalize aliceArn.
Proof.
  assert (Contains (Replace aliceArn "arn:aws:sts::" "arn:aws:iam::" 1)
                   ":assumed-role/" = false) as H by by_evaluation.
  split; [exact H|]. exact (normalizeArn_agrees_with_inline aliceArn H).
Defined.

(** X3: the service part of an operation key is the event source up to its
    first dot, all of it when it has none; the key is that part, a colon and
    the event name. *)
Theorem actionOf_service_segment (ev : Event) :
  actionOf ev = cutAt "." (EventSource ev) +:+ ":" +:+ EventName ev
  ∧ mem "." (cutAt "." (EventSource ev)) = false.
Proof.
  split; [|apply mem_cutAt]. unfold actionOf. by rewrite (hd_Split ".").
Qed.

Section IdentityFilter.

Context (env : Env).
Implicit Types st : State.

Lemma fold_processRecord_all_filtered normalize identity (evs : list Event) st :
  (∀ ev, ev ∈ evs → passesFilters normalize identity ev = false) →
  fold_left (λ st ev, processRecord normalize identity ev st) evs st = st.
Proof.
  revert st. induction evs as [|ev evs IH]; intros st H; [done|]. simpl.
  rewrite processRecord_filtered by (apply H; set_solver).
  apply IH. intros ev' Hin. apply H. set_solver.
Qed.

Lemma slash_identity_filters normalize identity ev :
  (∀ raw, mem "/" (normalize raw) = false) → mem "/" identity = true →
  passesFilters normalize identity ev = false.
Proof.
  intros Hn Hid. unfold passesFilters.
  destruct (String.eqb_spec (normalize (Arn (UserIdentity ev))) identity) as [He|];
    [|done].
  by rewrite <- He, Hn in Hid.
Qed.

Lemma worker_slash_identity normalize bucket identity (keys : list string) st :
  (∀ raw, mem "/" (normalize raw) = false) → mem "/" identity = true →
  resultsOf (worker env normalize bucket identity keys st) = resultsOf st.
Proof.
  intros Hn Hid. rewrite (worker_results env normalize bucket identity keys st st eq_refl).
  rewrite fold_processRecord_all_filtered; [done|].
  intros ev _. by apply slash_identity_filters.
Qed.

End IdentityFilter.

(** X4: with a target identity that holds a slash (an [--identity] value
    that names the principal, such as [arn:aws:iam::<acct>:user/<name>]) a
    worker of the latest revision leaves the ledger and the secret set as
    they were, whatever the objects hold: no normal form holds a slash. *)
Theorem named_identity_finds_nothing (env : Env) (bucket identityFlag identity : string)
    (callerArn : option string) (keys : list string) (st : State) :
  resolveIdentity identityFlag callerArn = Some identity →
  mem "/" identityFlag = true →
  actions (worker env normalizeArn bucket identity keys st) = actions st
  ∧ secrets (worker env normalizeArn bucket identity keys st) = secrets st.
Proof.
  unfold resolveIdentity. intros Hres Hid.
  destruct (String.eqb_spec identityFlag "") as [->|_]; [done|].
  injection Hres as <-.
  assert (resultsOf (worker env normalizeArn bucket identityFlag keys st)
          = resultsOf st) as [= Ha Hs]; [|done].
  apply worker_slash_identity; [apply normalizeArn_no_slash|done].
Qed.

Lemma named_identity_finds_nothing_witness :
  resolveIdentity aliceArn None = Some aliceArn
  ∧ mem "/" aliceArn = true
  ∧ actions (worker sampleEnv normalizeArn "trail" aliceArn sampleKeys initState)
    = actions initState
  ∧ secrets (worker sampleEnv normalizeArn "trail" aliceArn sampleKeys initState)
    = secrets initState.
Proof.
  assert (resolveIdentity aliceArn None = Some aliceArn) as Hr by reflexivity.
  assert (mem "/" aliceArn = true) as Hm by reflexivity.
  split; [exact Hr|]. split; [exact Hm|].
  exact (named_identity_finds_nothing sampleEnv "trail" aliceArn aliceArn None
           sampleKeys initState Hr Hm).
Defined.

(** X5: in the two earlier revisions the target is the flag or the
    caller's ARN as it is; when it holds a slash (every user and role ARN
    does) a worker leaves the ledger and the secret set as they were. *)
Theorem raw_identity_finds_nothing (env : Env) (bucket identityFlag identity : string)
    (callerArn : option string) (keys : list string) (st : State) :
  resolveIdentityRaw identityFlag callerArn = Some identity →
  mem "/" identity = true →
  actions (worker env inlineNormalize bucket identity keys st) = actions st
  ∧ secrets (worker env inlineNormalize bucket identity keys st) = secrets st.
Proof.
  intros _ Hid.
  assert (resultsOf (worker env inlineNormalize bucket identity keys st)
          = resultsOf st) as [= Ha Hs]; [|done].
  apply worker_slash_identity; [apply inlineNormalize_no_slash|done].
Qed.

Lemma raw_identity_finds_nothing_witness :
  resolveIdentityRaw "" (Some aliceArn) = Some aliceArn
  ∧ mem "/" aliceArn = true
  ∧ actions (worker sampleEnv inlineNormalize "trail" aliceArn sampleKeys initState)
    = actions initState
  ∧ secrets (worker sampleEnv inlineNormalize "trail" aliceArn sampleKeys initState)
    = secrets initState.
Proof.
  assert (resolveIdentityRaw "" (Some aliceArn) = Some aliceArn) as Hr by reflexivity.
  assert (mem "/" aliceArn = true) as Hm by reflexivity.
  split; [exact Hr|]. split; [exact Hm|].
  exact (raw_identity_finds_nothing sampleEnv "trail" "" aliceArn (Some aliceArn)
           sampleKeys initState Hr Hm).
Defined.

(** X6: when the target is the caller's own identity (no [--identity]
    flag), the successful records of every principal whose ARN agrees with
    the caller's up to the first slash pass the identity filter: another
    user of the same account is taken for the caller. *)
Theorem default_identity_conflates_principals (p n1 n2 identity : string) (ev : Event) :
  resolveIdentity "" (Some (p +:+ "/" +:+ n1)) = Some identity →
  Arn (UserIdentity ev) = p +:+ "/" +:+ n2 →
  ErrorCode ev = None →
  passesFilters normalizeArn identity ev = true.
Proof.
  unfold resolveIdentity. simpl. intros [= <-] Harn Herr.
  unfold passesFilters. rewrite Harn, Herr.
  change ("/" +:+ n1) with (String "/" n1). change ("/" +:+ n2) with (String "/" n2).
  rewrite (normalizeArn_app_sep p n1), (normalizeArn_app_sep p n2).
  by rewrite String.eqb_refl.
Qed.

Lemma default_identity_conflates_principals_witness :
  resolveIdentity "" (Some ("arn:aws:iam::123456789012:user" +:+ "/" +:+ "bob"))
    = Some targetIdentity
  ∧ Arn (UserIdentity firstCall) = "arn:aws:iam::123456789012:user" +:+ "/" +:+ "alice"
  ∧ ErrorCode firstCall = None
  ∧ passesFilters normalizeArn targetIdentity firstCall = true.
Proof.
  assert (resolveIdentity "" (Some ("arn:aws:iam::123456789012:user" +:+ "/" +:+ "bob"))
          = Some targetIdentity) as Hr by by_evaluation.
  split; [exact Hr|]. split; [reflexivity|]. split; [reflexivity|].
  exact (default_identity_conflates_principals "arn:aws:iam::123456789012:user"
           "bob" "alice" targetIdentity firstCall Hr eq_refl eq_refl).
Defined.

(** ** What a run leaves in the ledger and in the secret set *)

Section RunResults.

Context (env : Env) (normalize : string → string).
Implicit Types st : State.
Implicit Types ev : Event.
Implicit Types identity bucket k t : string.

Lemma strGt_le a b : strGt a b = true → String.le b a.
Proof.
  intros H. apply strGt_true_iff in H. by destruct (total String.le a b).
Qed.

Lemma secrets_upsertAction k t st : secrets (upsertAction k t st) = secrets st.
Proof. by rewrite upsertAction_eq. Qed.

Lemma actions_processRecord_lookup identity ev st k :
  actions (processRecord normalize identity ev st) !! k
  = if passesFilters normalize identity ev && String.eqb (actionOf ev) k
    then Some (laterOf (actions st !! k) (EventTime ev))
    else actions st !! k.
Proof.
  destruct (passesFilters normalize identity ev) eqn:Hp; simpl.
  - rewrite actions_processRecord_pass by done.
    destruct (String.eqb_spec (actionOf ev) k) as [->|Hne].
    + apply upsertAction_lookup.
    + by apply upsertAction_lookup_ne.
  - by rewrite processRecord_filtered.
Qed.

Lemma secrets_processRecord identity ev st sid :
  sid ∈ secrets (processRecord normalize identity ev st)
  ↔ sid ∈ secrets st
    ∨ (passesFilters normalize identity ev = true ∧ secretRetrieval ev sid).
Proof.
  assert (∀ P : Prop, ¬ P → (sid ∈ secrets st ↔ sid ∈ secrets st ∨ P)) as Hskip
    by (intros P HP; split; [by left|by intros [|]]).
  destruct (passesFilters normalize identity ev) eqn:Hp.
  - unfold passesFilters in Hp. unfold processRecord, secretRetrieval.
    destruct (String.eqb _ identity), (bool_decide _); try done. simpl.
    destruct (Contains (EventSource ev) "secretsmanager") eqn:Hc; simpl;
      [|rewrite secrets_upsertAction; apply Hskip; by intros (_ & ? & _)].
    destruct (String.eqb_spec (EventName ev) "GetSecretValue") as [Hn|Hn];
      [|rewrite secrets_upsertAction; apply Hskip; by intros (_ & _ & ? & _)].
    destruct (RequestParameters ev !! "secretId") as [[| | |str| |]|] eqn:Hs; simpl;
      rewrite ?secrets_upsertAction;
      try (apply Hskip; by intros (_ & _ & _ & ?)).
    rewrite elem_of_union, elem_of_singleton. split.
    + intros [->|]; [right|by left]. done.
    + intros [|(_ & _ & _ & [= ->])]; [by right|by left].
  - rewrite processRecord_filtered by done. apply Hskip. by intros [? _].
Qed.

Lemma fold_ledger_none identity (evs : list Event) st k :
  actions (fold_left (λ st ev, processRecord normalize identity ev st) evs st) !! k
    = None
  ↔ actions st !! k = None
    ∧ ∀ ev, ev ∈ evs → passesFilters normalize identity ev = true → actionOf ev ≠ k.
Proof.
  induction evs as [|x evs IH] using rev_ind.
  - simpl. split; [|naive_solver]. intros H. split; [done|]. intros ev Hin.
    by apply elem_of_nil in Hin.
  - rewrite fold_left_app. simpl. rewrite actions_processRecord_lookup.
    destruct (passesFilters normalize identity x) eqn:Hp; simpl.
    + destruct (String.eqb_spec (actionOf x) k) as [Hk|Hk].
      * split; [done|]. intros [_ H]. destruct (H x); [set_solver|done..].
      * rewrite IH. split; intros [H1 H2]; (split; [done|]).
        -- intros ev [Hin|Hin]%elem_of_app; [by apply H2|].
           apply list_elem_of_singleton in Hin as ->. done.
        -- intros ev Hin. apply H2. set_solver.
    + rewrite IH. split; intros [H1 H2]; (split; [done|]).
      * intros ev [Hin|Hin]%elem_of_app; [by apply H2|].
        apply list_elem_of_singleton in Hin as ->. by rewrite Hp.
      * intros ev Hin. apply H2. set_solver.
Qed.

Lemma fold_ledger_some identity (evs : list Event) st k t :
  actions (fold_left (λ st ev, processRecord normalize identity ev st) evs st) !! k
    = Some t →
  (actions st !! k = Some t
   ∨ ∃ ev, ev ∈ evs ∧ passesFilters normalize identity ev = true
           ∧ actionOf ev = k ∧ EventTime ev = t)
  ∧ (∀ prev, actions st !! k = Some prev → String.le prev t)
  ∧ (∀ ev, ev ∈ evs → passesFilters normalize identity ev = true →
           actionOf ev = k → String.le (EventTime ev) t).
Proof.
  revert t. induction evs as [|x evs IH] using rev_ind; intros t.
  - simpl. intros H. split; [by left|]. split.
    + intros prev Hp. rewrite H in Hp. by injection Hp as ->.
    + intros ev Hin. by apply elem_of_nil in Hin.
  - rewrite fold_left_app. simpl. rewrite actions_processRecord_lookup.
    set (mid := fold_left (λ st ev, processRecord normalize identity ev st) evs st) in *.
    destruct (passesFilters normalize identity x && String.eqb (actionOf x) k) eqn:Hx.
    + apply andb_true_iff in Hx as [Hp Hk]. apply String.eqb_eq in Hk.
      intros [= <-]. destruct (actions mid !! k) as [p|] eqn:Hmid; simpl.
      * destruct (IH p eq_refl) as (Ho & Hst & Hevs).
        destruct (strGt (EventTime x) p) eqn:Hgt.
        -- apply strGt_le in Hgt. split; [right; exists x; set_solver|]. split.
           ++ intros prev Hprev. trans p; [by apply Hst|done].
           ++ intros ev [Hin|Hin]%elem_of_app Hpe Hke.
              ** trans p; [by apply Hevs|done].
              ** by apply list_elem_of_singleton in Hin as ->.
        -- apply strGt_false_iff in Hgt. split.
           { destruct Ho as [|(ev & Hin & ?)]; [by left|].
             right. exists ev. split; [set_solver|done]. }
           split; [done|].
           intros ev [Hin|Hin]%elem_of_app Hpe Hke; [by apply Hevs|].
           by apply list_elem_of_singleton in Hin as ->.
      * apply fold_ledger_none in Hmid as [Hst Hevs].
        split; [right; exists x; set_solver|]. split.
        -- intros prev Hprev. by rewrite Hst in Hprev.
        -- intros ev [Hin|Hin]%elem_of_app Hpe Hke.
           ++ by destruct (Hevs ev Hin Hpe).
           ++ by apply list_elem_of_singleton in Hin as ->.
    + intros Hmid. destruct (IH t Hmid) as (Ho & Hst & Hevs).
      split; [|split; [done|]].
      * destruct Ho as [|(ev & Hin & ?)]; [by left|].
        right. exists ev. split; [set_solver|done].
      * intros ev [Hin|Hin]%elem_of_app Hpe Hke; [by apply Hevs|].
        apply list_elem_of_singleton in Hin as ->.
        apply String.eqb_eq in Hke. by rewrite Hpe, Hke in Hx.
Qed.

Lemma fold_secrets identity (evs : list Event) st sid :
  sid ∈ secrets (fold_left (λ st ev, processRecord normalize identity ev st) evs st)
  ↔ sid ∈ secrets st
    ∨ ∃ ev, ev ∈ evs ∧ passesFilters normalize identity ev = true
            ∧ secretRetrieval ev sid.
Proof.
  induction evs as [|x evs IH] using rev_ind.
  - simpl. split; [by left|]. intros [|(ev & Hin & _)]; [done|].
    by apply elem_of_nil in Hin.
  - rewrite fold_left_app. simpl. rewrite secrets_processRecord, IH. split.
    + intros [[|(ev & Hin & ?)]|[? ?]]; [by left| |].
      * right. exists ev. split; [set_solver|done].
      * right. exists x. split; [set_solver|done].
    + intros [|(ev & [Hin|Hin]%elem_of_app & Hp & Hs)]; [by left; left| |].
      * left. right. by exists ev.
      * apply list_elem_of_singleton in Hin as ->. by right.
Qed.

Lemma worker_actions bucket identity (keys : list string) st :
  actions (worker env normalize bucket identity keys st)
  = actions (fold_left (λ st ev, processRecord normalize identity ev st)
                       (flat_map (objectEvents env bucket) keys) st).
Proof.
  by pose proof (worker_results env normalize bucket identity keys st st eq_refl)
    as [= Ha Hs].
Qed.

Lemma worker_secrets bucket identity (keys : list string) st :
  secrets (worker env normalize bucket identity keys st)
  = secrets (fold_left (λ st ev, processRecord normalize identity ev st)
                       (flat_map (objectEvents env bucket) keys) st).
Proof.
  by pose proof (worker_results env normalize bucket identity keys st st eq_refl)
    as [= Ha Hs].
Qed.

End RunResults.

(** X7: an entry [k ↦ t] of the ledger after a worker's pass was there
    before, or [t] is the timestamp of a record of the objects that passes
    both filters and has the operation key [k]; and [t] is not earlier than
    the timestamp the key had before, nor than that of any such record. *)
Theorem ledger_holds_latest (env : Env) (bucket identity : string)
    (keys : list string) (st : State) (k t : string) :
  actions (worker env normalizeArn bucket identity keys st) !! k = Some t →
  (actions st !! k = Some t
   ∨ ∃ ev, ev ∈ flat_map (objectEvents env bucket) keys
           ∧ passesFilters normalizeArn identity ev = true
           ∧ actionOf ev = k ∧ EventTime ev = t)
  ∧ (∀ prev, actions st !! k = Some prev → String.le prev t)
  ∧ (∀ ev, ev ∈ flat_map (objectEvents env bucket) keys →
           passesFilters normalizeArn identity ev = true →
           actionOf ev = k → String.le (EventTime ev) t).
Proof. rewrite worker_actions. apply fold_ledger_some. Qed.

Lemma ledger_holds_latest_witness :
  actions (worker sampleEnv normalizeArn "trail" targetIdentity sampleKeys initState)
    !! "ec2:DescribeInstances" = Some "2024-01-15T10:30:00Z"
  ∧ (∀ ev, ev ∈ flat_map (objectEvents sampleEnv "trail") sampleKeys →
           passesFilters normalizeArn targetIdentity ev = true →
           actionOf ev = "ec2:DescribeInstances" →
           String.le (EventTime ev) "2024-01-15T10:30:00Z").
Proof.
  assert (actions (worker sampleEnv normalizeArn "trail" targetIdentity sampleKeys
                          initState) !! "ec2:DescribeInstances"
          = Some "2024-01-15T10:30:00Z") as H by by_evaluation.
  split; [exact H|].
  exact (proj2 (proj2 (ledger_holds_latest sampleEnv "trail" targetIdentity sampleKeys
                         initState "ec2:DescribeInstances" "2024-01-15T10:30:00Z" H))).
Defined.

(** X8: an operation key is absent from the ledger after a worker's pass
    exactly when it was absent before and no record of the objects that
    passes both filters has it; in particular a pass removes no entry. *)
Theorem ledger_entry_absent_iff (env : Env) (bucket identity : string)
    (keys : list string) (st : State) (k : string) :
  actions (worker env normalizeArn bucket identity keys st) !! k = None
  ↔ actions st !! k = None
    ∧ ∀ ev, ev ∈ flat_map (objectEvents env bucket) keys →
            passesFilters normalizeArn identity ev = true → actionOf ev ≠ k.
Proof. rewrite worker_actions. apply fold_ledger_none. Qed.

(** X9: a secret identifier is in the secret set after a worker's pass
    exactly when it was there before or some record of the objects passes
    both filters and is a [GetSecretValue] call on a [secretsmanager] source
    with that string under [secretId]. *)
Theorem secret_set_iff (env : Env) (bucket identity : string)
    (keys : list string) (st : State) (sid : string) :
  sid ∈ secrets (worker env normalizeArn bucket identity keys st)
  ↔ sid ∈ secrets st
    ∨ ∃ ev, ev ∈ flat_map (objectEvents env bucket) keys
            ∧ passesFilters normalizeArn identity ev = true
            ∧ secretRetrieval ev sid.
Proof. rewrite worker_secrets. apply fold_secrets. Qed.

Section Counters.

Context (env : Env) (normalize : string → string).
Implicit Types st : State.

Lemma processRecord_counters identity ev st :
  processed (processRecord normalize identity ev st) = processed st
  ∧ getObjectLog (processRecord normalize identity ev st) = getObjectLog st.
Proof.
  rewrite processRecord_ops. generalize (recordOps normalize identity ev).
  intros ops. revert st. induction ops as [|o ops IH]; intros st; [done|].
  simpl. destruct (IH (applyOp st o)) as [-> ->].
  destruct o; simpl; by rewrite ?upsertAction_eq.
Qed.

Lemma process_counters bucket key identity st :
  processed (process env normalize bucket key identity st) = processed st
  ∧ getObjectLog (process env normalize bucket key identity st)
    = getObjectLog st ++ [(bucket, key)].
Proof.
  rewrite process_eq. generalize (objectEvents env bucket key). intros evs.
  change (processed st) with (processed (logGetObject bucket key st)).
  change (getObjectLog st ++ [(bucket, key)])
    with (getObjectLog (logGetObject bucket key st)).
  generalize (logGetObject bucket key st). clear st.
  induction evs as [|ev evs IH]; intros st; [done|]. simpl.
  destruct (IH (processRecord normalize identity ev st)) as [-> ->].
  apply processRecord_counters.
Qed.

Lemma wrap64_in_range z : - 2 ^ 63 <= z < 2 ^ 63 → wrap64 z = z.
Proof. intros H. unfold wrap64. rewrite Z.mod_small; lia. Qed.

Lemma worker_counters bucket identity (keys : list string) st :
  0 <= processed st → processed st + Z.of_nat (length keys) < 2 ^ 63 →
  processed (worker env normalize bucket identity keys st)
    = processed st + Z.of_nat (length keys)
  ∧ getObjectLog (worker env normalize bucket identity keys st)
    = getObjectLog st ++ ((λ key, (bucket, key)) <$> keys).
Proof.
  revert st. induction keys as [|key keys IH]; intros st H0 Hlt.
  - simpl. split; [lia|by rewrite app_nil_r].
  - simpl length in Hlt. simpl.
    destruct (process_counters bucket key identity st) as [Hp Hl].
    destruct (IH (workerStep env normalize bucket identity st key)) as [-> ->].
    + unfold workerStep. simpl. rewrite Hp. unfold AddInt64.
      rewrite wrap64_in_range; lia.
    + unfold workerStep. simpl. rewrite Hp. unfold AddInt64.
      rewrite wrap64_in_range; lia.
    + unfold workerStep. simpl. rewrite Hp, Hl. unfold AddInt64.
      rewrite wrap64_in_range by lia. split; [lia|].
      by rewrite <- app_assoc.
Qed.

End Counters.

(** X10: a worker that starts with a non-negative counter and stays below
    2^63 issues exactly one [GetObject] request per key it receives, in the
    order received, and advances [processed] by the number of keys, whether
    the objects could be read or not. *)
Theorem worker_requests_each_key_once (env : Env) (bucket identity : string)
    (keys : list string) (st : State) :
  0 <= processed st → processed st + Z.of_nat (length keys) < 2 ^ 63 →
  processed (worker env normalizeArn bucket identity keys st)
    = processed st + Z.of_nat (length keys)
  ∧ getObjectLog (worker env normalizeArn bucket identity keys st)
    = getObjectLog st ++ ((λ key, (bucket, key)) <$> keys).
Proof. apply worker_counters. Qed.

Lemma worker_requests_each_key_once_witness :
  0 <= processed initState
  ∧ processed initState + Z.of_nat (length sampleKeys) < 2 ^ 63
  ∧ processed (worker sampleEnv normalizeArn "trail" targetIdentity sampleKeys initState)
    = 3
  ∧ getObjectLog (worker sampleEnv normalizeArn "trail" targetIdentity sampleKeys
                         initState)
    = [("trail", "a.json.gz"); ("trail", "bad.json.gz"); ("trail", "b.json.gz")].
Proof.
  assert (0 <= processed initState) as H0 by (simpl; lia).
  assert (processed initState + Z.of_nat (length sampleKeys) < 2 ^ 63) as H1
    by (simpl; lia).
  split; [exact H0|]. split; [exact H1|].
  exact (worker_requests_each_key_once sampleEnv "trail" targetIdentity sampleKeys
           initState H0 H1).
Defined.

(** X11: a record of an object that cannot be unmarshalled is skipped and
    the records around it are processed as if it were not there. *)
Theorem malformed_record_skipped (env : Env) (bucket key identity : string)
    (body : Body env) (gz : GzipReader env)
    (before after : list (RawMessage env)) (bad : RawMessage env) (st : State) :
  GetObject env bucket key = Some body →
  gzipNewReader env body = Some gz →
  decodeWrapper env gz = Some (before ++ bad :: after) →
  unmarshalEvent env bad = None →
  process env normalizeArn bucket key identity st
  = fold_left (processRaw env normalizeArn identity) (before ++ after)
              (logGetObject bucket key st).
Proof.
  intros Hget Hgz Hdec Hbad. unfold process. rewrite Hget, Hgz, Hdec.
  rewrite !fold_left_app. simpl. unfold processRaw at 2. by rewrite Hbad.
Qed.

Lemma malformed_record_skipped_witness :
  GetObject tornEnv "trail" "a.json.gz" = Some "a.json.gz"
  ∧ gzipNewReader tornEnv "a.json.gz" = Some "a.json.gz"
  ∧ decodeWrapper tornEnv "a.json.gz" = Some ([Some firstCall] ++ None :: [Some secondCall])
  ∧ unmarshalEvent tornEnv None = None
  ∧ process tornEnv normalizeArn "trail" "a.json.gz" targetIdentity initState
    = fold_left (processRaw tornEnv normalizeArn targetIdentity)
                ([Some firstCall] ++ [Some secondCall])
                (logGetObject "trail" "a.json.gz" initState).
Proof.
  split; [reflexivity|]. split; [reflexivity|]. split; [reflexivity|].
  split; [reflexivity|].
  exact (malformed_record_skipped tornEnv "trail" "a.json.gz" targetIdentity
           "a.json.gz" "a.json.gz" [Some firstCall] [Some secondCall] None initState
           eq_refl eq_refl eq_refl eq_refl).
Defined.

(** ** Listing: what the two listers return *)

Section ListingMore.

Context (pages : string → list PageResult).

Lemma flat_map_insert {A B} (f : A → list B) (l : list A) (i : nat) (x y : A) :
  l !! i = Some x →
  ∃ front back, flat_map f l = front ++ f x ++ back
              ∧ flat_map f (<[i := y]> l) = front ++ f y ++ back.
Proof.
  intros Hi. exists (flat_map f (take i l)), (flat_map f (drop (S i) l)). split.
  - rewrite <- (take_drop_middle l i x Hi) at 1. by rewrite flat_map_app.
  - rewrite insert_take_drop by (by eapply lookup_lt_Some). by rewrite flat_map_app.
Qed.

Lemma listerStep_keeps_keys st j :
  allKeys (listerStep st j) ++ flat_map pendingOf (listers (listerStep st j))
  ≡ₚ allKeys st ++ flat_map pendingOf (listers st).
Proof.
  unfold listerStep.
  destruct (listers st !! j) as [[[|[contents|] rest]|]|] eqn:Hj; simpl; try done.
  - destruct (flat_map_insert pendingOf _ j _ Returned Hj) as (f & b & -> & ->). done.
  - destruct (flat_map_insert pendingOf _ j _ (Listing rest) Hj) as (f & b & -> & ->).
    simpl. solve_Permutation.
  - destruct (flat_map_insert pendingOf _ j _ Returned Hj) as (f & b & -> & ->). done.
Qed.

Lemma runListers_keeps_keys sched st :
  allKeys (runListers sched st) ++ flat_map pendingOf (listers (runListers sched st))
  ≡ₚ allKeys st ++ flat_map pendingOf (listers st).
Proof.
  revert st. induction sched as [|j sched IH]; intros st; [done|].
  simpl. rewrite IH. apply listerStep_keeps_keys.
Qed.

Lemma pending_done (ls : list Lister) :
  forallb isReturned ls = true → flat_map pendingOf ls = [].
Proof.
  induction ls as [|[rest|] ls IH]; simpl; [done|done|]. apply IH.
Qed.

Lemma pending_init (prefixes : list string) :
  flat_map pendingOf (listers (listInit pages prefixes)) = shardKeys pages prefixes.
Proof.
  unfold listInit, shardKeys; simpl.
  induction prefixes as [|p ps IH]; [done|]. rewrite fmap_cons. simpl. by f_equal.
Qed.

End ListingMore.

(** X12: once every listing goroutine of [run] has returned, [allKeys]
    holds, in some order, exactly the keys of the pages each shard delivered
    before its first error: no key is lost or doubled, and nothing that
    follows an error is listed. *)
Theorem run_listing_exact (pages : string → list PageResult)
    (prefixes : list string) (sched : list nat) :
  listersDone (runListers sched (listInit pages prefixes)) = true →
  allKeys (runListers sched (listInit pages prefixes)) ≡ₚ shardKeys pages prefixes.
Proof.
  intros Hdone.
  pose proof (runListers_keeps_keys sched (listInit pages prefixes)) as H.
  rewrite (pending_done _ Hdone), app_nil_r in H.
  by rewrite H, pending_init.
Qed.

Lemma run_listing_exact_witness :
  listersDone (runListers [1; 0; 1]%nat (listInit samplePages samplePrefixes)) = true
  ∧ allKeys (runListers [1; 0; 1]%nat (listInit samplePages samplePrefixes))
    ≡ₚ shardKeys samplePages samplePrefixes.
Proof.
  assert (listersDone (runListers [1; 0; 1]%nat (listInit samplePages samplePrefixes))
          = true) as H by reflexivity.
  split; [exact H|].
  exact (run_listing_exact samplePages samplePrefixes [1; 0; 1]%nat H).
Defined.

Section PoolMore.

Context (pages : string → list PageResult).

Lemma poolStep_keeps_keys st j :
  all (poolStep pages st j) ++ flat_map pendingWorker (workers (poolStep pages st j))
    ++ shardKeys pages (jobs (poolStep pages st j))
  ≡ₚ all st ++ flat_map pendingWorker (workers st) ++ shardKeys pages (jobs st).
Proof.
  unfold poolStep.
  destruct (workers st !! j) as [[|[|[contents|] rest]|]|] eqn:Hj; simpl; try done.
  - destruct (jobs st) as [|shard queue] eqn:Hq; simpl.
    + destruct (flat_map_insert pendingWorker _ j _ Exited Hj) as (f & b & -> & ->).
      by rewrite Hq.
    + destruct (flat_map_insert pendingWorker _ j _ (ListingShard (pages shard)) Hj)
        as (f & b & -> & ->).
      unfold shardKeys. simpl. solve_Permutation.
  - destruct (flat_map_insert pendingWorker _ j _ Receiving Hj) as (f & b & -> & ->).
    done.
  - destruct (flat_map_insert pendingWorker _ j _ (ListingShard rest) Hj)
      as (f & b & -> & ->).
    simpl. solve_Permutation.
  - destruct (flat_map_insert pendingWorker _ j _ Exited Hj) as (f & b & -> & ->).
    done.
Qed.

Lemma runPool_keeps_keys sched st :
  all (runPool pages sched st) ++ flat_map pendingWorker (workers (runPool pages sched st))
    ++ shardKeys pages (jobs (runPool pages sched st))
  ≡ₚ all st ++ flat_map pendingWorker (workers st) ++ shardKeys pages (jobs st).
Proof.
  revert st. induction sched as [|j sched IH]; intros st; [done|].
  simpl. rewrite IH. apply poolStep_keeps_keys.
Qed.

Lemma pendingWorker_done (ws : list PoolWorker) :
  forallb isExited ws = true → flat_map pendingWorker ws = [].
Proof.
  induction ws as [|[|rest|] ws IH]; simpl; try done; try apply IH.
Qed.

Lemma pendingWorker_init n : flat_map pendingWorker (replicate n Receiving) = [].
Proof. induction n as [|n IH]; [done|]. simpl. apply IH. Qed.

Lemma poolStep_length st j : length (workers (poolStep pages st j)) = length (workers st).
Proof.
  unfold poolStep.
  destruct (workers st !! j) as [[|[|[contents|] rest]|]|]; simpl;
    try destruct (jobs st); simpl; by rewrite ?length_insert.
Qed.

Lemma runPool_length sched st :
  length (workers (runPool pages sched st)) = length (workers st).
Proof.
  revert st. induction sched as [|j sched IH]; intros st; [done|].
  simpl. by rewrite IH, poolStep_length.
Qed.

Lemma poolStep_errorFree st j :
  poolErrorFree pages st → poolErrorFree pages (poolStep pages st j).
Proof.
  intros Hinv. pose proof Hinv as (Hw & Hj & He). unfold poolStep.
  destruct (workers st !! j) as [[|[|[contents|] rest]|]|] eqn:Hwj;
    [| | |by specialize (Hw j _ Hwj)|exact Hinv|exact Hinv].
  - destruct (jobs st) as [|shard queue] eqn:Hq.
    + split; [|split]; simpl.
      * intros i rest [(_ & [=] & _)|[_ H]]%list_lookup_insert_Some. by eapply Hw.
      * by rewrite Hq.
      * by rewrite Hq.
    + split; [|split]; simpl.
      * intros i rest [(_ & [= <-] & _)|[_ H]]%list_lookup_insert_Some;
          [apply Hj; set_solver|by eapply Hw].
      * intros p Hp. apply Hj. set_solver.
      * intros (i & [(_ & [=] & _)|[_ H]]%list_lookup_insert_Some).
        assert (shard :: queue = []) as Hnil by (apply He; by exists i). done.
  - split; [|split]; simpl; [|done|].
    + intros i rest [(_ & [=] & _)|[_ H]]%list_lookup_insert_Some. by eapply Hw.
    + intros (i & [(_ & [=] & _)|[_ H]]%list_lookup_insert_Some).
      apply He. by exists i.
  - split; [|split]; simpl; [|done|].
    + intros i r [(_ & [= <-] & _)|[_ H]]%list_lookup_insert_Some; [|by eapply Hw].
      specialize (Hw j _ Hwj). simpl in Hw. done.
    + intros (i & [(_ & [=] & _)|[_ H]]%list_lookup_insert_Some).
      apply He. by exists i.
Qed.

Lemma runPool_errorFree sched st :
  poolErrorFree pages st → poolErrorFree pages (runPool pages sched st).
Proof.
  revert st. induction sched as [|j sched IH]; intros st H; [done|].
  simpl. by apply IH, poolStep_errorFree.
Qed.

Lemma poolInit_errorFree (prefixes : list string) (shards : Z) :
  (∀ p, p ∈ prefixes → errorFree (pages p) = true) →
  poolErrorFree pages (poolInit prefixes shards).
Proof.
  intros H. split; [|split]; simpl; [|done|].
  - intros i rest [? _]%lookup_replicate. done.
  - intros (i & [? _]%lookup_replicate). done.
Qed.

Lemma listKeys_spec (ps : list PageResult) :
  listKeys ps = if errorFree ps then Some (collected ps) else None.
Proof.
  induction ps as [|[contents|] ps IH]; simpl; [done| |done].
  rewrite IH. by destruct (errorFree ps).
Qed.

End PoolMore.

(** X13: when the pool of [listKeysParallel] is done, the keys it returns
    together with the keys (up to the first error) of the shards still in the
    channel are, in some order, the keys of all shards up to their first
    error: nothing is doubled or made up, and what is missing is what the
    queued shards would have delivered. *)
Theorem listKeysParallel_accounts_for_keys (pages : string → list PageResult)
    (prefixes : list string) (shards : Z) (sched : list nat) :
  poolDone (runPool pages sched (poolInit prefixes shards)) = true →
  all (runPool pages sched (poolInit prefixes shards))
    ++ shardKeys pages (jobs (runPool pages sched (poolInit prefixes shards)))
  ≡ₚ shardKeys pages prefixes.
Proof.
  intros Hdone.
  pose proof (runPool_keeps_keys pages sched (poolInit prefixes shards)) as H.
  rewrite (pendingWorker_done _ Hdone) in H. simpl in H.
  by rewrite pendingWorker_init in H.
Qed.

Lemma listKeysParallel_accounts_for_keys_witness :
  poolDone (runPool samplePages [0; 0]%nat (poolInit samplePrefixes 1)) = true
  ∧ all (runPool samplePages [0; 0]%nat (poolInit samplePrefixes 1))
      ++ shardKeys samplePages (jobs (runPool samplePages [0; 0]%nat
                                              (poolInit samplePrefixes 1)))
    ≡ₚ shardKeys samplePages samplePrefixes.
Proof.
  assert (poolDone (runPool samplePages [0; 0]%nat (poolInit samplePrefixes 1)) = true)
    as H by reflexivity.
  split; [exact H|].
  exact (listKeysParallel_accounts_for_keys samplePages samplePrefixes 1 [0; 0]%nat H).
Defined.

(** X14: with at least one worker and no listing error in any shard,
    [listKeysParallel] returns, under every schedule, exactly the keys of all
    shards, in some order. *)
Theorem listKeysParallel_complete_without_errors (pages : string → list PageResult)
    (p : string) (ps : list string) (prefix : string) (shards : Z) (sched : list nat) :
  0 < shards →
  (∀ q, q ∈ p :: ps → errorFree (pages q) = true) →
  poolDone (runPool pages sched (poolInit (p :: ps) shards)) = true →
  ∃ keys, listKeysParallel pages (Some (p :: ps)) prefix shards sched = Some keys
          ∧ keys ≡ₚ shardKeys pages (p :: ps).
Proof.
  intros Hpos Hfree Hdone. eexists. split; [done|].
  pose proof (runPool_keeps_keys pages sched (poolInit (p :: ps) shards)) as H.
  rewrite (pendingWorker_done _ Hdone) in H. simpl in H.
  rewrite pendingWorker_init in H.
  destruct (runPool_errorFree pages sched _ (poolInit_errorFree pages (p :: ps) shards Hfree))
    as (_ & _ & He).
  rewrite He in H; [by rewrite app_nil_r in H|].
  pose proof (runPool_length pages sched (poolInit (p :: ps) shards)) as Hlen.
  simpl in Hlen. rewrite length_replicate in Hlen.
  destruct (workers (runPool pages sched (poolInit (p :: ps) shards)))
    as [|w ws] eqn:Hws; [simpl in Hlen; lia|].
  exists 0%nat. unfold poolDone in Hdone. rewrite Hws in Hdone. simpl in Hdone.
  by destruct w.
Qed.

Lemma listKeysParallel_complete_without_errors_witness :
  0 < 2
  ∧ (∀ q, q ∈ "AWSLogs/a/" :: ["AWSLogs/b/"] → errorFree (cleanPages q) = true)
  ∧ poolDone (runPool cleanPages [0; 1; 1; 0; 0; 1; 1; 0; 1; 0]%nat
                      (poolInit ("AWSLogs/a/" :: ["AWSLogs/b/"]) 2)) = true
  ∧ ∃ keys, listKeysParallel cleanPages (Some ("AWSLogs/a/" :: ["AWSLogs/b/"]))
                             "AWSLogs/" 2 [0; 1; 1; 0; 0; 1; 1; 0; 1; 0]%nat = Some keys
            ∧ keys ≡ₚ shardKeys cleanPages ("AWSLogs/a/" :: ["AWSLogs/b/"]).
Proof.
  assert (0 < 2) as H0 by lia.
  assert (∀ q, q ∈ "AWSLogs/a/" :: ["AWSLogs/b/"] → errorFree (cleanPages q) = true)
    as H1 by (intros q _; reflexivity).
  assert (poolDone (runPool cleanPages [0; 1; 1; 0; 0; 1; 1; 0; 1; 0]%nat
                            (poolInit ("AWSLogs/a/" :: ["AWSLogs/b/"]) 2)) = true)
    as H2 by reflexivity.
  split; [exact H0|]. split; [exact H1|]. split; [exact H2|].
  exact (listKeysParallel_complete_without_errors cleanPages "AWSLogs/a/" ["AWSLogs/b/"]
           "AWSLogs/" 2 [0; 1; 1; 0; 0; 1; 1; 0; 1; 0]%nat H0 H1 H2).
Defined.

(** X15: with no worker ([shards <= 0]) the pool of [listKeysParallel] is
    done at once and the function returns no key, whatever the shards hold. *)
Theorem listKeysParallel_without_workers (pages : string → list PageResult)
    (p : string) (ps : list string) (prefix : string) (shards : Z) (sched : list nat) :
  shards <= 0 →
  poolDone (runPool pages sched (poolInit (p :: ps) shards)) = true
  ∧ listKeysParallel pages (Some (p :: ps)) prefix shards sched = Some [].
Proof.
  intros Hs.
  assert (runPool pages sched (poolInit (p :: ps) shards) = poolInit (p :: ps) shards)
    as Hrun.
  { unfold poolInit. replace (Z.to_nat shards) with 0%nat by lia. simpl.
    induction sched as [|j sched IH]; [done|]. simpl. apply IH. }
  unfold listKeysParallel. rewrite Hrun. unfold poolInit.
  replace (Z.to_nat shards) with 0%nat by lia. done.
Qed.

Lemma listKeysParallel_without_workers_witness :
  0 <= 0
  ∧ poolDone (runPool cleanPages [0; 1]%nat (poolInit ("AWSLogs/a/" :: ["AWSLogs/b/"]) 0))
    = true
  ∧ listKeysParallel cleanPages (Some ("AWSLogs/a/" :: ["AWSLogs/b/"])) "AWSLogs/" 0
                     [0; 1]%nat = Some [].
Proof.
  assert (0 <= 0) as H by lia.
  split; [exact H|].
  exact (listKeysParallel_without_workers cleanPages "AWSLogs/a/" ["AWSLogs/b/"]
           "AWSLogs/" 0 [0; 1]%nat H).
Defined.

(** X16: without common prefixes under the base prefix, [listKeysParallel]
    falls back to [listKeys], which is all or nothing: every key of every page
    when no page fails, no result at all (the process exits) when one does. *)
Theorem listKeysParallel_fallback_all_or_nothing (pages : string → list PageResult)
    (prefix : string) (shards : Z) (sched : list nat) :
  listKeysParallel pages (Some []) prefix shards sched
  = if errorFree (pages prefix) then Some (collected (pages prefix)) else None.
Proof. apply listKeys_spec. Qed.

(** ** Shard discovery and the sorted views *)

Lemma shardLevels_spec (commonPrefixes : string → option (list string))
    (levels : nat) (prefixes ps : list string) :
  shardLevels commonPrefixes prefixes levels = Some ps →
  (prefixes ≠ [] → ps ≠ [])
  ∧ ∃ depth, (depth ≤ levels)%nat
             ∧ levelAt commonPrefixes depth prefixes = Some ps
             ∧ (depth = levels ∨ nextLevel commonPrefixes ps = Some []).
Proof.
  revert prefixes. induction levels as [|levels IH]; intros prefixes; simpl.
  - intros [= <-]. split; [done|]. exists 0%nat. split; [lia|]. split; [done|by left].
  - destruct (nextLevel commonPrefixes prefixes) as [[|x next]|] eqn:Hn; [| |done].
    + intros [= <-]. split; [done|]. exists 0%nat. split; [lia|].
      split; [done|by right].
    + intros H. destruct (IH _ H) as (Hne & depth & Hle & Hat & Hend).
      split; [intros _; by apply Hne|].
      exists (S depth). split; [lia|]. split; [simpl; by rewrite Hn|].
      destruct Hend as [->|]; [by left|by right].
Qed.

(** X17: the shards [getShardPrefixes] returns are never none, and they are
    the prefixes of one single depth below the base, at most [levels] deep:
    the full depth, or the last one above a level without common prefixes.
    A prefix of a level above that depth is left out with the objects directly
    under it, unless it comes again further down. *)
Theorem getShardPrefixes_single_level (commonPrefixes : string → option (list string))
    (base : string) (levels : Z) (ps : list string) :
  getShardPrefixes commonPrefixes base levels = Some ps →
  ps ≠ []
  ∧ ∃ depth, (depth ≤ Z.to_nat levels)%nat
             ∧ levelAt commonPrefixes depth [base] = Some ps
             ∧ (depth = Z.to_nat levels ∨ nextLevel commonPrefixes ps = Some []).
Proof.
  intros H. destruct (shardLevels_spec _ _ _ _ H) as (Hne & Hd). split; [|done].
  by apply Hne.
Qed.

Lemma getShardPrefixes_single_level_witness :
  getShardPrefixes sampleTree "AWSLogs/" 4 = Some ["AWSLogs/a/eu/"; "AWSLogs/a/us/"]
  ∧ ["AWSLogs/a/eu/"; "AWSLogs/a/us/"] ≠ []
  ∧ ∃ depth, (depth ≤ Z.to_nat 4)%nat
             ∧ levelAt sampleTree depth ["AWSLogs/"]
               = Some ["AWSLogs/a/eu/"; "AWSLogs/a/us/"]
             ∧ (depth = Z.to_nat 4
                ∨ nextLevel sampleTree ["AWSLogs/a/eu/"; "AWSLogs/a/us/"] = Some []).
Proof.
  assert (getShardPrefixes sampleTree "AWSLogs/" 4
          = Some ["AWSLogs/a/eu/"; "AWSLogs/a/us/"]) as H by by_evaluation.
  split; [exact H|].
  exact (getShardPrefixes_single_level sampleTree "AWSLogs/" 4 _ H).
Defined.

(** X18: discovery that goes at least two levels deep lists every common
    prefix of the base; a listing error on one of them ends the run:
    [getShardPrefixes] has no result. *)
Theorem getShardPrefixes_error_is_fatal (commonPrefixes : string → option (list string))
    (base failing : string) (levels : Z) (cps : list string) :
  1 < levels →
  commonPrefixes base = Some cps →
  failing ∈ cps →
  commonPrefixes failing = None →
  getShardPrefixes commonPrefixes base levels = None.
Proof.
  intros Hl Hbase Hin Hfail. unfold getShardPrefixes.
  destruct (Z.to_nat levels) as [|[|n]] eqn:Hn; [lia|lia|]. simpl.
  rewrite Hbase, app_nil_r. destruct cps as [|c cps]; [by apply elem_of_nil in Hin|].
  assert (nextLevel commonPrefixes (c :: cps) = None) as ->; [|done].
  revert Hin. generalize (c :: cps). intros l. induction l as [|x l IH]; intros Hin.
  - by apply elem_of_nil in Hin.
  - simpl. destruct (commonPrefixes x) as [xs|] eqn:Hx; [|done].
    apply elem_of_cons in Hin as [->|Hin]; [by rewrite Hfail in Hx|].
    by rewrite (IH Hin).
Qed.

Lemma getShardPrefixes_error_is_fatal_witness :
  1 < 4
  ∧ brokenTree "AWSLogs/" = Some ["AWSLogs/a/"; "AWSLogs/b/"]
  ∧ "AWSLogs/b/" ∈ ["AWSLogs/a/"; "AWSLogs/b/"]
  ∧ brokenTree "AWSLogs/b/" = None
  ∧ getShardPrefixes brokenTree "AWSLogs/" 4 = None.
Proof.
  assert (1 < 4) as H0 by lia.
  assert ("AWSLogs/b/" ∈ ["AWSLogs/a/"; "AWSLogs/b/"]) as H2 by set_solver.
  split; [exact H0|]. split; [reflexivity|]. split; [exact H2|].
  split; [reflexivity|].
  exact (getShardPrefixes_error_is_fatal brokenTree "AWSLogs/" "AWSLogs/b/" 4
           ["AWSLogs/a/"; "AWSLogs/b/"] H0 eq_refl H2 eq_refl).
Defined.

(** X21: for a flat archive (no common prefix under the base) discovery
    returns the base prefix alone, whatever the depth asked for, and [run]
    lists that one prefix. *)
Theorem flat_archive_lists_base (commonPrefixes : string → option (list string))
    (base : string) (levels : Z) :
  commonPrefixes base = Some [] →
  getShardPrefixes commonPrefixes base levels = Some [base]
  ∧ shardPlan base [base] = [base].
Proof.
  intros H. split; [|done]. unfold getShardPrefixes.
  destruct (Z.to_nat levels) as [|n]; [done|]. simpl. by rewrite H.
Qed.

Lemma flat_archive_lists_base_witness :
  sampleTree "AWSLogs/b/" = Some []
  ∧ getShardPrefixes sampleTree "AWSLogs/b/" 4 = Some ["AWSLogs/b/"]
  ∧ shardPlan "AWSLogs/b/" ["AWSLogs/b/"] = ["AWSLogs/b/"].
Proof.
  assert (sampleTree "AWSLogs/b/" = Some []) as H by reflexivity.
  split; [exact H|].
  exact (flat_archive_lists_base sampleTree "AWSLogs/b/" 4 H).
Defined.

Section SortedViews.

Lemma sortStrings_sorted (l : list string) : StronglySorted String.le (sortStrings l).
Proof. apply StronglySorted_merge_sort; apply _. Qed.

Lemma sortStrings_Permutation (l : list string) : sortStrings l ≡ₚ l.
Proof. apply merge_sort_Permutation. Qed.

(** Sorting does not depend on the order of its input. *)
Lemma sortStrings_order (l l' : list string) : l ≡ₚ l' → sortStrings l = sortStrings l'.
Proof.
  intros Hp. apply (Sorted_unique String.le).
  - apply Sorted_merge_sort; apply _.
  - apply Sorted_merge_sort; apply _.
  - by rewrite !sortStrings_Permutation.
Qed.

End SortedViews.

(** X19: [sortedKeys] lists exactly the keys of the ledger, each once, in
    ascending byte-wise order, and does so whatever order [range] yields the
    keys in. *)
Theorem sortedKeys_spec (m : gmap string string) :
  StronglySorted String.le (sortedKeys m)
  ∧ NoDup (sortedKeys m)
  ∧ length (sortedKeys m) = size m
  ∧ (∀ k, k ∈ sortedKeys m ↔ is_Some (m !! k))
  ∧ (∀ ks, ks ≡ₚ (map_to_list m).*1 → sortStrings ks = sortedKeys m).
Proof.
  unfold sortedKeys. split; [apply sortStrings_sorted|].
  split; [rewrite sortStrings_Permutation; apply NoDup_fst_map_to_list|].
  split; [by rewrite sortStrings_Permutation, length_fmap, length_map_to_list|].
  split; [|intros ks Hks; by apply sortStrings_order].
  intros k. rewrite sortStrings_Permutation, list_elem_of_fmap. split.
  - intros ([k' v] & -> & Hin). apply elem_of_map_to_list in Hin. by exists v.
  - intros [v Hv]. exists (k, v). split; [done|]. by apply elem_of_map_to_list.
Qed.

(** X20: [secretsList] lists exactly the members of the secret set, each
    once, in ascending byte-wise order, whatever order [range] yields them
    in. *)
Theorem secretsList_spec (m : gset string) :
  StronglySorted String.le (secretsList m)
  ∧ NoDup (secretsList m)
  ∧ length (secretsList m) = size m
  ∧ (∀ sid, sid ∈ secretsList m ↔ sid ∈ m)
  ∧ (∀ l, l ≡ₚ elements m → sortStrings l = secretsList m).
Proof.
  unfold secretsList. split; [apply sortStrings_sorted|].
  split; [rewrite sortStrings_Permutation; apply NoDup_elements|].
  split; [by rewrite sortStrings_Permutation|].
  split; [|intros l Hl; by apply sortStrings_order].
  intros sid. by rewrite sortStrings_Permutation, elem_of_elements.
Qed.
